(** * Filler: filling missing values and outliers of table columns

    A shallow embedding of [src/filler.py] (class [Filler]) and of the part of
    the numeric engine (pandas [Series] and [DataFrame], [random.choices]) that
    the class calls.

    Numbers.  A cell of a numeric column is a float; here a cell is an exact
    rational or NaN ([None]).  Arithmetic on cells propagates NaN and every
    comparison with NaN is false, as in the engine.  Rounding and infinities
    are not modelled; the square root needed by [std] and the stream of
    uniform random numbers read by [choices] are parameters. *)

From Stdlib Require Import QArith Qround ZArith Lia.
From stdpp Require Import base option list gmap strings.

Local Open Scope Q_scope.

(** ** The numeric engine *)

Module Pandas.

(** A float: [None] is NaN. *)
Abbreviation cell := (option Q).
Definition NaN : cell := None.

(** A column of a table. *)
Abbreviation Series := (list (option Q)).

(** A table: named columns. *)
Abbreviation DataFrame := (gmap string (list (option Q))).

Definition Qltb (x y : Q) : bool := negb (Qle_bool y x).

Definition lift2 (f : Q → Q → Q) (a b : cell) : cell :=
  match a, b with
  | Some x, Some y => Some (f x y)
  | _, _ => None
  end.

Definition fadd : cell → cell → cell := lift2 Qplus.
Definition fsub : cell → cell → cell := lift2 Qminus.
Definition fmul : cell → cell → cell := lift2 Qmult.

(** [a < b] on floats: false as soon as one side is NaN. *)
Definition flt (a b : cell) : bool :=
  match a, b with
  | Some x, Some y => Qltb x y
  | _, _ => false
  end.

(** [s.isna()] *)
Definition isna (s : Series) : list bool :=
  map (λ x : cell, match x with None => true | Some _ => false end) s.

(** The present values of a column, in row order (what every aggregation
    below works on: [skipna=True], [dropna=True]). *)
Fixpoint dropna (s : Series) : list Q :=
  match s with
  | [] => []
  | Some x :: s' => x :: dropna s'
  | None :: s' => dropna s'
  end.

(** [mask.sum()], also the [size] of a selection by [mask]. *)
Fixpoint mask_sum (mask : list bool) : nat :=
  match mask with
  | [] => O
  | b :: mask' => (if b then 1 else 0)%nat + mask_sum mask'
  end.


Definition Qsum (l : list Q) : Q := foldr Qplus 0 l.

Definition Qnat (n : nat) : Q := inject_Z (Z.of_nat n).

(** [s.mean()]: NaN when no value is present. *)
Definition mean (s : Series) : cell :=
  match dropna s with
  | [] => None
  | xs => Some (Qsum xs / Qnat (length xs))
  end.

(** Ascending insertion sort (stable). *)
Fixpoint insert_sorted (x : Q) (l : list Q) : list Q :=
  match l with
  | [] => [x]
  | y :: l' => if Qle_bool x y then x :: l else y :: insert_sorted x l'
  end.

Fixpoint sort (l : list Q) : list Q :=
  match l with
  | [] => []
  | x :: l' => insert_sorted x (sort l')
  end.

(** Linear interpolation between the order statistics around the virtual
    index [(n - 1) * q] of the sorted present values; NaN on an empty
    column. *)
Definition quantile (q : Q) (s : Series) : cell :=
  let xs := sort (dropna s) in
  match xs with
  | [] => None
  | x0 :: _ =>
      let h := Qnat (length xs - 1) * q in
      let lo := Z.to_nat (Qfloor h) in
      let hi := Nat.min (lo + 1) (length xs - 1) in
      let a := nth lo xs x0 in
      let b := nth hi xs x0 in
      Some (a + (b - a) * (h - inject_Z (Qfloor h)))
  end.

(** [s.median()] *)
Definition median (s : Series) : cell := quantile (1 # 2) s.

(** Number of entries of [l] equal (as numbers) to [x]. *)
Definition count (x : Q) (l : list Q) : nat :=
  length (filter (λ y, Qeq_bool x y = true) l).

(** The distinct values of [l], each at its first occurrence. *)
Fixpoint distinct (l : list Q) : list Q :=
  match l with
  | [] => []
  | x :: l' => x :: filter (λ y, Qeq_bool x y = false) (distinct l')
  end.

Definition max_count (l : list Q) : nat :=
  foldr Nat.max O (map (λ x, count x l) l).

(** [s.mode()]: the most frequent present values, in ascending order. *)
Definition mode (s : Series) : list Q :=
  let xs := dropna s in
  sort (filter (λ x, count x xs = max_count xs) (distinct xs)).

(** Sample standard deviation ([ddof=1]); NaN below two present values.
    [sqrt] is the engine's square root. *)
Definition std (sqrt : Q → Q) (s : Series) : cell :=
  let xs := dropna s in
  match xs with
  | [] | [_] => None
  | _ =>
      let m := Qsum xs / Qnat (length xs) in
      Some (sqrt (Qsum (map (λ x, (x - m) * (x - m)) xs) / Qnat (length xs - 1)))
  end.

(** Stable insertion of a counted value, larger counts first. *)
Fixpoint insert_desc (p : Q * nat) (l : list (Q * nat)) : list (Q * nat) :=
  match l with
  | [] => [p]
  | q :: l' => if (snd q <=? snd p)%nat then p :: l else q :: insert_desc p l'
  end.

Definition sort_desc (l : list (Q * nat)) : list (Q * nat) :=
  foldr insert_desc [] l.

(** [s.value_counts(normalize=True)]: each distinct present value with its
    share of the present values, most frequent first.  The first components
    are the [index] of the result, the second its [values]. *)
Definition value_counts (s : Series) : list (Q * Q) :=
  let xs := dropna s in
  map (λ p : Q * nat, (fst p, Qnat (snd p) / Qnat (length xs)))
      (sort_desc (map (λ x, (x, count x xs)) (distinct xs))).

(** [s[mask] = v] for a scalar [v]. *)
Fixpoint assign (mask : list bool) (v : cell) (s : Series) : Series :=
  match mask, s with
  | b :: mask', x :: s' => (if b then v else x) :: assign mask' v s'
  | _, _ => s
  end.

(** [s[mask] = vs] for a sequence [vs] with one value per selected row. *)
Fixpoint assign_seq (mask : list bool) (vs : list cell) (s : Series) : Series :=
  match mask, s with
  | true :: mask', x :: s' =>
      match vs with
      | v :: vs' => v :: assign_seq mask' vs' s'
      | [] => x :: assign_seq mask' [] s'
      end
  | false :: mask', x :: s' => x :: assign_seq mask' vs s'
  | _, _ => s
  end.

(** [s[mask]] *)
Fixpoint select (mask : list bool) (s : Series) : Series :=
  match mask, s with
  | b :: mask', x :: s' => if b then x :: select mask' s' else select mask' s'
  | _, _ => []
  end.

(** [itertools.accumulate]: running sums. *)
Fixpoint accumulate_from (acc : Q) (ws : list Q) : list Q :=
  match ws with
  | [] => []
  | w :: ws' => (acc + w) :: accumulate_from (acc + w) ws'
  end.

Definition accumulate (ws : list Q) : list Q :=
  match ws with
  | [] => []
  | w :: ws' => w :: accumulate_from w ws'
  end.

(** [bisect.bisect_right(a, x, lo, hi)] on a non-decreasing [a]: the first
    index in [lo, hi) whose entry exceeds [x], or [hi]. *)
Fixpoint bisect_scan (a : list Q) (x : Q) (i n : nat) : nat :=
  match n with
  | O => i
  | S n' =>
      match a !! i with
      | Some y => if Qltb x y then i else bisect_scan a x (S i) n'
      | None => i
      end
  end.

Definition bisect (a : list Q) (x : Q) (lo hi : nat) : nat :=
  bisect_scan a x lo (hi - lo).

End Pandas.

(** ** Python values, exceptions and the effect monad *)

Inductive pytype :=
  TNone | TBool | TInt | TFloat | TStr | TList | TTuple | TIndex | TDataFrame.

Global Instance pytype_eq_dec : EqDecision pytype.
Proof. solve_decision. Defined.

(** The values a caller can pass.  A table is passed by reference: the
    address of a table object. *)
Inductive pyval :=
  | PyNone
  | PyBool (b : bool)
  | PyInt (z : Z)
  | PyFloat (f : Pandas.cell)
  | PyStr (s : string)
  | PyList (l : list string)
  | PyTuple (l : list string)
  | PyIndex (l : list string)
  | PyDataFrame (a : nat).

(** [type(v)] *)
Definition type (v : pyval) : pytype :=
  match v with
  | PyNone => TNone
  | PyBool _ => TBool
  | PyInt _ => TInt
  | PyFloat _ => TFloat
  | PyStr _ => TStr
  | PyList _ => TList
  | PyTuple _ => TTuple
  | PyIndex _ => TIndex
  | PyDataFrame _ => TDataFrame
  end.

(** [v == s] for a string literal [s] *)
Definition eq_str (v : pyval) (s : string) : bool :=
  match v with
  | PyStr s' => String.eqb s' s
  | _ => false
  end.

(** [v in l] for a list [l] of string literals *)
Definition in_strs (v : pyval) (l : list string) : bool :=
  existsb (eq_str v) l.

(** The float an [int] or [float] stands for in arithmetic and in a cell. *)
Definition to_cell (v : pyval) : Pandas.cell :=
  match v with
  | PyInt z => Some (inject_Z z)
  | PyFloat f => f
  | _ => None
  end.

Inductive exn := TypeError | ValueError | KeyError | IndexError.

Inductive result (A : Type) :=
  | Ok (a : A)
  | Raise (e : exn).
Arguments Ok {A} a.
Arguments Raise {A} e.

(** What a method of an instance reads and writes: the attributes [data]
    (the table the instance owns) and [columns], and the number of random
    numbers the generator has handed out. *)
Record world := World {
  data : gmap string (list (option Q));
  columns : list string;
  drawn : nat
}.

Definition set_data (w : world) (t : gmap string (list (option Q))) : world :=
  World t (columns w) (drawn w).

(** A computation either returns or raises; what it wrote before raising
    stays written. *)
Definition M (A : Type) : Type := world → result A * world.

Global Instance M_ret : MRet M := λ A a w, (Ok a, w).

Global Instance M_bind : MBind M := λ A B f m w,
  match m w with
  | (Ok a, w') => f a w'
  | (Raise e, w') => (Raise e, w')
  end.

Global Instance M_fmap : FMap M := λ A B f m w,
  match m w with
  | (Ok a, w') => (Ok (f a), w')
  | (Raise e, w') => (Raise e, w')
  end.

Definition raise {A} (e : exn) : M A := λ w, (Raise e, w).

Definition pass : M () := mret ().

Definition when (b : bool) (m : M ()) : M () :=
  if b then m else pass.

(** [for x in l: body x] *)
Fixpoint for_ {A} (l : list A) (body : A → M ()) : M () :=
  match l with
  | [] => mret ()
  | x :: l' => body x ;; for_ l' body
  end.

(** [[m for _ in range(n)]] *)
Fixpoint repeat_ {A} (n : nat) (m : M A) : M (list A) :=
  match n with
  | O => mret []
  | S n' => x ← m; xs ← repeat_ n' m; mret (x :: xs)
  end.

(** ** The class *)

Module Filler.
Import Pandas.

Section Methods.

(** The generator's output: [random i] is the [i]-th number [random()]
    returns. *)
Variable random : nat → Q.

(** The engine's square root. *)
Variable sqrt : Q → Q.

(** [random()] *)
Definition random_ : M Q := λ w,
  (Ok (random (drawn w)), World (data w) (columns w) (S (drawn w))).

(** [random.choices(population, weights)], with its default [k=1]: a list
    of one element. *)
Definition choices (population weights : list Q) : M (list Q) :=
  let n := length population in
  let cum_weights := accumulate weights in
  if bool_decide (length cum_weights ≠ n) then raise ValueError else
  match last cum_weights with
  | None => raise IndexError
  | Some total =>
      if Qle_bool total 0 then raise ValueError else
      u ← random_;
      match population !! bisect cum_weights (u * total) 0 (n - 1) with
      | Some v => mret [v]
      | None => raise IndexError
      end
  end.

(** [self.data[c]] *)
Definition getitem (c : string) : M Series := λ w,
  match data w !! c with
  | Some s => (Ok s, w)
  | None => (Raise KeyError, w)
  end.

(** [self.data.loc[mask, c] = v] for a scalar [v].  Every call below comes
    after [self.data[c]] has been read, so [c] is a column. *)
Definition loc_set (mask : list bool) (c : string) (v : cell) : M () := λ w,
  match data w !! c with
  | Some s => (Ok (), set_data w (<[c := assign mask v s]> (data w)))
  | None => (Raise KeyError, w)
  end.

(** The one column of a list of one-element rows. *)
Definition column0 (rows : list (list Q)) : option (list cell) :=
  mapM (λ r, match r with [v] => Some (Some v) | _ => None end) rows.

(** [self.data.loc[mask, c] = rows] for a list of one-element lists, one per
    selected row: a value of shape (n, 1) written to one column, row by
    row.  Another shape raises. *)
Definition loc_set_rows (mask : list bool) (c : string) (rows : list (list Q))
  : M () := λ w,
  match data w !! c with
  | Some s =>
      match column0 rows with
      | Some vs =>
          if bool_decide (length vs = mask_sum mask)
          then (Ok (), set_data w (<[c := assign_seq mask vs s]> (data w)))
          else (Raise ValueError, w)
      | None => (Raise ValueError, w)
      end
  | None => (Raise KeyError, w)
  end.

(** [return self.data] *)
Definition return_data : M (gmap string (list (option Q))) := λ w, (Ok (data w), w).

Definition self_columns : M (list string) := λ w, (Ok (columns w), w).

Definition fillnan (method : pyval) : M (gmap string (list (option Q))) :=
  (if bool_decide (type method ∉ [TStr; TInt; TFloat])
   then raise TypeError else pass) ;;
  (if bool_decide (type method = TStr)
   then if negb (in_strs method ["mean"; "median"; "mode"; "rdbr"]%string)
        then raise ValueError else pass
   else pass) ;;
  cols ← self_columns;
  for_ cols (λ c,
    nans ← isna <$> getitem c;
    when (bool_decide (type method = TInt) || bool_decide (type method = TFloat))
      (loc_set nans c (to_cell method)) ;;
    when (eq_str method "mean")
      (s ← getitem c; loc_set nans c (mean s)) ;;
    when (eq_str method "median")
      (s ← getitem c; loc_set nans c (median s)) ;;
    when (eq_str method "mode")
      (s ← getitem c;
       match mode s !! 0%nat with
       | Some v => loc_set nans c (Some v)
       | None => raise KeyError
       end) ;;
    when (eq_str method "rdbr")
      (ratio ← value_counts <$> getitem c;
       rdbr ← repeat_ (mask_sum nans) (choices ratio.*1 ratio.*2);
       loc_set_rows nans c rdbr)) ;;
  return_data.

(** [(s < left) | (s > right)] *)
Definition outside (left right : cell) (s : Series) : list bool :=
  map (λ x, flt x left || flt right x) s.

(** The part of both outlier methods after the bounds: lines 118-134 and
    171-187 of the source are the same text. *)
Definition fill_outside (method : pyval) (c : string) (left right : cell) : M () :=
  outliers ← outside left right <$> getitem c;
  no_outliers ← select (map negb outliers) <$> getitem c;
  when (bool_decide (type method = TInt) || bool_decide (type method = TFloat))
    (loc_set outliers c (to_cell method)) ;;
  when (eq_str method "mean")
    (loc_set outliers c (mean no_outliers)) ;;
  when (eq_str method "median")
    (loc_set outliers c (median no_outliers)) ;;
  when (eq_str method "rdbr")
    (let ratio := value_counts no_outliers in
     size ← (λ s, length (select outliers s)) <$> getitem c;
     rdbr ← repeat_ size (choices ratio.*1 ratio.*2);
     loc_set_rows outliers c rdbr).

(** The checks both outlier methods start with. *)
Definition check_outlier_args (method k : pyval) : M () :=
  (if bool_decide (type method ∉ [TStr; TInt; TFloat])
   then raise TypeError else pass) ;;
  (if bool_decide (type k ∉ [TInt; TFloat])
   then raise TypeError else pass) ;;
  (if bool_decide (type method = TStr)
   then if negb (in_strs method ["mean"; "median"; "rdbr"]%string)
        then raise ValueError else pass
   else pass).

Definition filloutlier_iqr (method k : pyval) : M (gmap string (list (option Q))) :=
  check_outlier_args method k ;;
  cols ← self_columns;
  for_ cols (λ c,
    q1 ← quantile (1 # 4) <$> getitem c;
    q3 ← quantile (3 # 4) <$> getitem c;
    let iqr := fmul (to_cell k) (fsub q3 q1) in
    let left := fsub q1 iqr in
    let right := fadd q3 iqr in
    fill_outside method c left right) ;;
  return_data.

Definition filloutlier_sigma (method k : pyval) : M (gmap string (list (option Q))) :=
  check_outlier_args method k ;;
  cols ← self_columns;
  for_ cols (λ c,
    mean ← mean <$> getitem c;
    sigma ← (λ s, fmul (to_cell k) (std sqrt s)) <$> getitem c;
    let left := fsub mean sigma in
    let right := fadd mean sigma in
    fill_outside method c left right) ;;
  return_data.

End Methods.

(** *** The methods as passes over columns

    The loop body of each method reads one column and writes it back.  The
    definitions below say what it computes, as a function of the column and
    of the generator's position; the lemmas [fillnan_passes],
    [filloutlier_iqr_passes] and [filloutlier_sigma_passes] relate the
    source's methods to them. *)

Section Passes.

Variable random : nat → Q.
Variable sqrt : Q → Q.

(** What [choices] returns, on the random number [u], for the index and the
    values of a frequency table. *)
Definition sample (ratio : list (Q * Q)) (u : Q) : Q :=
  let cum_weights := accumulate ratio.*2 in
  let total := List.last cum_weights 0 in
  nth (bisect cum_weights (u * total) 0 (length ratio - 1)) ratio.*1 0.

(** [n] draws, starting at position [d] of the generator. *)
Definition draws (ratio : list (Q * Q)) (d n : nat) : list cell :=
  map (λ i, Some (sample ratio (random (d + i)))) (seq 0 n).

(** A pass writes a column and moves the generator, or raises. *)
Definition rdbr_fill (mask : list bool) (basis : Series) (d : nat) (s : Series)
  : result (Series * nat) :=
  let ratio := value_counts basis in
  match mask_sum mask, ratio with
  | S _, [] => Raise IndexError
  | n, _ => Ok (assign_seq mask (draws ratio d n) s, (d + n)%nat)
  end.

(** What one pass writes: the constant, or the statistic the string names
    computed over [basis], at the rows of [mask].  The mode of no value
    raises, as [mode()[0]] does. *)
Definition fill (method : pyval) (mask : list bool) (basis : Series)
    (d : nat) (s : Series) : result (Series * nat) :=
  match method with
  | PyInt _ | PyFloat _ => Ok (assign mask (to_cell method) s, d)
  | PyStr m =>
      if String.eqb m "mean" then Ok (assign mask (mean basis) s, d)
      else if String.eqb m "median" then Ok (assign mask (median basis) s, d)
      else if String.eqb m "mode" then
        match mode basis !! 0%nat with
        | Some v => Ok (assign mask (Some v) s, d)
        | None => Raise KeyError
        end
      else if String.eqb m "rdbr" then rdbr_fill mask basis d s
      else Ok (s, d)
  | _ => Ok (s, d)
  end.

(** The pass of [fillnan]: the mask is the missing entries, the basis the
    column itself. *)
Definition nan_pass (method : pyval) (d : nat) (s : Series) : result (Series * nat) :=
  fill method (isna s) s d s.

Definition iqr_bounds (k : pyval) (s : Series) : cell * cell :=
  let q1 := quantile (1 # 4) s in
  let q3 := quantile (3 # 4) s in
  let width := fmul (to_cell k) (fsub q3 q1) in
  (fsub q1 width, fadd q3 width).

Definition sigma_bounds (k : pyval) (s : Series) : cell * cell :=
  let width := fmul (to_cell k) (std sqrt s) in
  (fsub (mean s) width, fadd (mean s) width).

(** The entries strictly outside the bounds. *)
Definition outliers (bounds : Series → cell * cell) (s : Series) : list bool :=
  outside (bounds s).1 (bounds s).2 s.

(** The in-bound subset. *)
Definition no_outliers (bounds : Series → cell * cell) (s : Series) : Series :=
  select (map negb (outliers bounds s)) s.

(** The pass of the outlier methods: the mask is the outliers, the basis the
    in-bound subset. *)
Definition outlier_pass (bounds : Series → cell * cell) (method : pyval)
    (d : nat) (s : Series) : result (Series * nat) :=
  fill method (outliers bounds s) (no_outliers bounds s) d s.

(** One pass [T] over column [c] of the stored table. *)
Definition run_col (T : nat → Series → result (Series * nat)) (c : string) : M () :=
  λ w,
  match data w !! c with
  | None => (Raise KeyError, w)
  | Some s =>
      match T (drawn w) s with
      | Raise e => (Raise e, w)
      | Ok (s', d') => (Ok (), World (<[c := s']> (data w)) (columns w) d')
      end
  end.

(** A column written by a pass is the image of the column read. *)
Definition image (T : nat → Series → result (Series * nat)) (s s' : Series) : Prop :=
  ∃ d d', T d s = Ok (s', d').

(** The columns of [t'] are those of [t], each related by [R] to what it
    was. *)
Definition related (R : Series → Series → Prop)
    (t t' : gmap string (list (option Q))) : Prop :=
  ∀ c, match t !! c, t' !! c with
       | Some s, Some s' => R s s'
       | None, None => True
       | _, _ => False
       end.

(** The passes over the configured columns in order, then [return self.data]. *)
Definition run_passes (T : nat → Series → result (Series * nat))
  : M (gmap string (list (option Q))) :=
  cols ← self_columns; for_ cols (run_col T) ;; return_data.

(** The methods a string may name. *)
Definition nan_methods : list string := ["mean"; "median"; "mode"; "rdbr"]%string.
Definition outlier_methods : list string := ["mean"; "median"; "rdbr"]%string.

(** [method] passes the checks of a method accepting the strings [names]. *)
Definition valid_method (names : list string) (method : pyval) : Prop :=
  match method with
  | PyInt _ | PyFloat _ => True
  | PyStr m => m ∈ names
  | _ => False
  end.

Definition numeric (k : pyval) : Prop :=
  type k = TInt ∨ type k = TFloat.

End Passes.

(** *** Objects

    The caller's table and the table an instance owns are objects of the
    heap; an instance holds the address of its table. *)

Section Objects.

Variable random : nat → Q.
Variable sqrt : Q → Q.

Record instance := Instance {
  self_data : nat;
  self_cols : list string
}.

(** The heap of table objects and the generator's position. *)
Record program_state := ProgramState {
  heap : gmap nat (gmap string (list (option Q)));
  gen : nat
}.

(** The elements [for c in columns] iterates over. *)
Definition elements_of (v : pyval) : list string :=
  match v with
  | PyList l | PyTuple l | PyIndex l => l
  | _ => []
  end.

(** [Filler(data, columns)].  [data.copy(deep=True)] is a new object with
    the contents of the object [data] refers to. *)
Definition init (data columns : pyval) (h : gmap nat (gmap string (list (option Q))))
  : result instance * gmap nat (gmap string (list (option Q))) :=
  if bool_decide (type data ≠ TDataFrame) then (Raise TypeError, h) else
  if bool_decide (type columns ∉ [TIndex; TList; TTuple]) then (Raise TypeError, h) else
  match data with
  | PyDataFrame a =>
      let a' := fresh (dom h) in
      (Ok (Instance a' (elements_of columns)), partial_alter (λ _, h !! a) a' h)
  | _ => (Raise TypeError, h)
  end.

(** A method call [self.m(...)]: the method works on the object at
    [self.data] and returns a reference to it.  The address of an instance
    is always that of an object; the last case is there for totality. *)
Definition call (self : instance) (m : M (gmap string (list (option Q))))
    (p : program_state) : result pyval * program_state :=
  match heap p !! self_data self with
  | Some t =>
      let '(r, w) := m (World t (self_cols self) (gen p)) in
      (match r with Ok _ => Ok (PyDataFrame (self_data self)) | Raise e => Raise e end,
       ProgramState (<[self_data self := data w]> (heap p)) (drawn w))
  | None => (Raise KeyError, p)
  end.

(** The fill operations of an instance. *)
Inductive operation :=
  | Fillnan (method : pyval)
  | Filloutlier_iqr (method k : pyval)
  | Filloutlier_sigma (method k : pyval).

Definition method_of (o : operation) : M (gmap string (list (option Q))) :=
  match o with
  | Fillnan method => fillnan random method
  | Filloutlier_iqr method k => filloutlier_iqr random method k
  | Filloutlier_sigma method k => filloutlier_sigma random sqrt method k
  end.

(** A sequence of calls on one instance; an exception of one call does not
    stop the caller from making the next. *)
Fixpoint calls (self : instance) (os : list operation) (p : program_state)
  : program_state :=
  match os with
  | [] => p
  | o :: os' => calls self os' (call self (method_of o) p).2
  end.

(** The two rules for outliers, and the method of each. *)
Inductive rule := Iqr | Sigma.

Definition bounds_of (r : rule) (k : pyval) : Series → cell * cell :=
  match r with
  | Iqr => iqr_bounds k
  | Sigma => sigma_bounds sqrt k
  end.

Definition filloutlier (r : rule) (method k : pyval)
  : M (gmap string (list (option Q))) :=
  match r with
  | Iqr => filloutlier_iqr random method k
  | Sigma => filloutlier_sigma random sqrt method k
  end.

(** The rows an operation may write in a column [s]. *)
Definition mask_of (o : operation) (s : Series) : list bool :=
  match o with
  | Fillnan _ => isna s
  | Filloutlier_iqr _ k => outliers (iqr_bounds k) s
  | Filloutlier_sigma _ k => outliers (sigma_bounds sqrt k) s
  end.

End Objects.
End Filler.

(** ** Instances that differ in their configured columns *)

(** The instance [w] with [cols] configured instead of its own columns. *)
Definition with_columns (cols : list string) (w : world) : world :=
  World (data w) cols (drawn w).



(** ** The operations as passes *)

Section Calls.

Variable random : nat → Q.
Variable sqrt : Q → Q.

(** The method argument of an operation. *)
Definition method_arg (o : Filler.operation) : pyval :=
  match o with
  | Filler.Fillnan method => method
  | Filler.Filloutlier_iqr method _ => method
  | Filler.Filloutlier_sigma method _ => method
  end.

(** The arguments of the operation pass its checks. *)
Definition valid_call (o : Filler.operation) : Prop :=
  match o with
  | Filler.Fillnan method => Filler.valid_method Filler.nan_methods method
  | Filler.Filloutlier_iqr method k | Filler.Filloutlier_sigma method k =>
      Filler.valid_method Filler.outlier_methods method ∧ Filler.numeric k
  end.

(** The pass of an operation over one column. *)
Definition pass_of (o : Filler.operation)
  : nat → list (option Q) → result (list (option Q) * nat) :=
  match o with
  | Filler.Fillnan method => Filler.nan_pass random method
  | Filler.Filloutlier_iqr method k =>
      Filler.outlier_pass random (Filler.iqr_bounds k) method
  | Filler.Filloutlier_sigma method k =>
      Filler.outlier_pass random (Filler.sigma_bounds sqrt k) method
  end.

End Calls.

(** ** More sample data *)

Module MoreExamples.


(** The column [NaN, NaN]. *)
Definition blank : list (option Q) := [None; None].



(** Two configured columns, ["a"] with holes and ["b"] without. *)
Definition two_columns : world :=
  World {[ "a"%string := [None; Some 1; Some 2; Some 2; None];
           "b"%string := [Some 1; Some 2] ]} ["a"; "b"]%string 0.

End MoreExamples.

(** ** Sample data *)

Module Examples.
Import Pandas.

(** A generator stuck at one third. *)
Definition third : nat → Q := λ _, 1 # 3.

(** The square root of [a / b] as [floor (sqrt (a * b)) / b]: exact on the
    squares, rounded down elsewhere. *)
Definition sqrt_down (q : Q) : Q :=
  inject_Z (Z.sqrt (Qnum q * Z.pos (Qden q))) / inject_Z (Z.pos (Qden q)).

(** The column [1, 2, 3, 4, 100]. *)
Definition column : Series := [Some 1; Some 2; Some 3; Some 4; Some 100].

(** The column [NaN, 1, 2, 2, NaN]. *)
Definition holes : Series := [None; Some 1; Some 2; Some 2; None].

(** The column [NaN, 3, 2, 2, 3]: two modes. *)
Definition tied : Series := [None; Some 3; Some 2; Some 2; Some 3].

Definition k_1_5 : pyval := PyFloat (Some (3 # 2)).

(** An instance whose table has the one column ["a"], configured with
    [cols]. *)
Definition instance_of (s : Series) (cols : list string) : world :=
  World {[ "a"%string := s ]} cols 0.


End Examples.

(** * Proofs *)

Import Pandas Filler.

(** ** Loops *)

Lemma for_cons {A} (x : A) l (body : A → M ()) w :
  for_ (x :: l) body w =
  match body x w with
  | (Ok _, w1) => for_ l body w1
  | (Raise e, w1) => (Raise e, w1)
  end.
Proof. reflexivity. Qed.

Lemma for_ext {A} (l : list A) (f g : A → M ()) :
  (∀ x w, f x w = g x w) → ∀ w, for_ l f w = for_ l g w.
Proof.
  intros E. induction l as [|x l IH]; intros w; [done|].
  rewrite !for_cons, E. destruct (g x w) as [[[]|e] w1]; [apply IH|done].
Qed.

Lemma for_inv {A} (I : world → Prop) (l : list A) (body : A → M ()) :
  (∀ x w, I w → I (body x w).2) → ∀ w, I w → I (for_ l body w).2.
Proof.
  intros Hb. induction l as [|x l IH]; intros w Hw; [done|].
  rewrite for_cons. specialize (Hb x w Hw).
  destruct (body x w) as [[[]|e] w1]; simpl in *; [by apply IH|done].
Qed.



Lemma length_accumulate_from acc ws : length (accumulate_from acc ws) = length ws.
Proof. revert acc. induction ws as [|w ws IH]; intros acc; simpl; [done|by rewrite IH]. Qed.

Lemma length_accumulate ws : length (accumulate ws) = length ws.
Proof. destruct ws; simpl; [done|by rewrite length_accumulate_from]. Qed.

Lemma bisect_scan_le a x i n : (bisect_scan a x i n ≤ i + n)%nat.
Proof.
  revert i. induction n as [|n IH]; intros i; simpl; [lia|].
  destruct (a !! i); [|lia]. destruct (Qltb x q); [lia|].
  specialize (IH (S i)). lia.
Qed.

Lemma bisect_le a x hi : (bisect a x 0 hi ≤ hi)%nat.
Proof. unfold bisect. pose proof (bisect_scan_le a x 0 (hi - 0)). lia. Qed.

Lemma last_default {A} (l : list A) (x d : A) : last l = Some x → List.last l d = x.
Proof.
  induction l as [|y l IH]; [done|]. destruct l as [|z l]; simpl in *.
  - congruence.
  - intros H. by apply IH.
Qed.

Lemma accumulate_from_pos acc ws :
  0 < acc → Forall (λ w, 0 < w) ws → Forall (λ w, 0 < w) (accumulate_from acc ws).
Proof.
  intros Hacc Hws. revert acc Hacc. induction Hws as [|w ws Hw Hws IH]; intros acc Hacc; simpl.
  - constructor.
  - assert (0 < acc + w) by (apply Qlt_trans with acc; [done|]; rewrite <- (Qplus_0_r acc) at 1; by apply Qplus_lt_r).
    constructor; [done|]. by apply IH.
Qed.

Lemma accumulate_pos ws :
  Forall (λ w, 0 < w) ws → Forall (λ w, 0 < w) (accumulate ws).
Proof.
  intros [|w ws' Hw Hws]; simpl; constructor; [done|]. by apply accumulate_from_pos.
Qed.

Section ChoicesFacts.
Variable random : nat → Q.

Lemma choices_sample (ratio : list (Q * Q)) w :
  ratio ≠ [] → Forall (λ p, 0 < p.2) ratio →
  choices random ratio.*1 ratio.*2 w =
  (Ok [sample ratio (random (drawn w))], World (data w) (columns w) (S (drawn w))).
Proof.
  intros Hne Hpos. unfold choices.
  rewrite length_accumulate, !length_fmap.
  rewrite bool_decide_eq_false_2 by (intros H; by apply H).
  destruct (last (accumulate ratio.*2)) as [total|] eqn:Hlast.
  2:{ apply last_None in Hlast. apply (f_equal length) in Hlast.
      rewrite length_accumulate, length_fmap in Hlast. by destruct ratio. }
  assert (0 < total) as Htot.
  { assert (Forall (λ w, 0 < w) (accumulate ratio.*2)) as Hall.
    { apply accumulate_pos. by apply Forall_fmap. }
    rewrite Forall_forall in Hall. apply Hall.
    apply last_Some in Hlast as [l' ->]. set_solver. }
  destruct (Qle_bool total 0) eqn:Hle.
  { apply Qle_bool_iff in Hle. exfalso. by apply (Qlt_not_le 0 total). }
  unfold mbind, M_bind, random_. simpl.
  unfold sample. rewrite (last_default _ total 0 Hlast).
  set (i := bisect _ _ _ _).
  assert (i < length ratio.*1)%nat as Hi.
  { rewrite length_fmap. pose proof (bisect_le (accumulate ratio.*2) (random (drawn w) * total) (length ratio - 1)).
    fold i in H. destruct ratio; [done|]. simpl in *. lia. }
  destruct (lookup_lt_is_Some_2 _ _ Hi) as [v Hv]. rewrite Hv.
  by rewrite (nth_lookup_Some _ _ 0 _ Hv).
Qed.
End ChoicesFacts.

Lemma insert_desc_perm p l : insert_desc p l ≡ₚ p :: l.
Proof.
  induction l as [|q l IH]; simpl; [done|].
  destruct (snd q <=? snd p)%nat; [done|]. rewrite IH. apply Permutation_swap.
Qed.

Lemma sort_desc_perm l : sort_desc l ≡ₚ l.
Proof.
  induction l as [|p l IH]; simpl; [done|].
  unfold sort_desc in *. simpl. by rewrite insert_desc_perm, IH.
Qed.

Lemma distinct_subseteq l : distinct l ⊆ l.
Proof.
  induction l as [|x l IH]; simpl; [done|].
  intros y [->|Hy]%elem_of_cons; [left|right].
  apply list_elem_of_filter in Hy as [_ Hy]. by apply IH.
Qed.

Lemma distinct_nil l : distinct l = [] → l = [].
Proof. by destruct l. Qed.

Lemma count_pos x l : x ∈ l → (0 < count x l)%nat.
Proof.
  intros Hx. unfold count.
  assert (x ∈ filter (λ y, Qeq_bool x y = true) l) as Hin.
  { apply list_elem_of_filter. split; [|done]. apply Qeq_bool_iff. reflexivity. }
  destruct (filter _ l); [by apply elem_of_nil in Hin|simpl; lia].
Qed.

Lemma Qnat_pos n : (0 < n)%nat → 0 < Qnat n.
Proof. intros H. unfold Qnat, Qlt. simpl. lia. Qed.

Lemma elem_of_value_counts p s :
  p ∈ value_counts s →
  p.1 ∈ dropna s ∧ p.2 = Qnat (count p.1 (dropna s)) / Qnat (length (dropna s)).
Proof.
  unfold value_counts. intros (q & -> & Hq)%list_elem_of_fmap.
  rewrite sort_desc_perm in Hq. apply list_elem_of_fmap in Hq as (x & -> & Hx).
  simpl. split; [|done]. by apply distinct_subseteq.
Qed.

Lemma value_counts_pos s : Forall (λ p, 0 < p.2) (value_counts s).
Proof.
  apply Forall_forall. intros p Hp. apply elem_of_value_counts in Hp as [Hin ->].
  assert (0 < length (dropna s))%nat.
  { destruct (dropna s); [by apply elem_of_nil in Hin|simpl; lia]. }
  apply Qlt_shift_div_l; [by apply Qnat_pos|]. rewrite Qmult_0_l.
  apply Qnat_pos. by apply count_pos.
Qed.

Lemma fst_map_pair {A B} (f : A → B) (l : list A) : (map (λ x, (x, f x)) l).*1 = l.
Proof. induction l as [|x l IH]; [done|]. cbn. f_equal. apply IH. Qed.

Lemma fst_map_fst {A B C} (f : B → C) (l : list (A * B)) :
  (map (λ p : A * B, (p.1, f p.2)) l).*1 = l.*1.
Proof. induction l as [|x l IH]; [done|]. cbn. f_equal. apply IH. Qed.

Lemma value_counts_index s : (value_counts s).*1 ≡ₚ distinct (dropna s).
Proof.
  unfold value_counts.
  rewrite (fst_map_fst (λ n, Qnat n / Qnat (length (dropna s)))).
  rewrite sort_desc_perm. by rewrite (fst_map_pair (λ x, count x (dropna s))).
Qed.

Lemma value_counts_nil s : value_counts s = [] ↔ dropna s = [].
Proof.
  split.
  - intros H. apply distinct_nil. apply Permutation_nil_r.
    rewrite <- value_counts_index. by rewrite H.
  - intros H. unfold value_counts. by rewrite H.
Qed.

Lemma column0_singletons {A} (f : A → Q) (l : list A) :
  column0 (map (λ i, [f i]) l) = Some (map (λ i, Some (f i)) l).
Proof.
  unfold column0. induction l as [|x l IH]; [done|].
  cbn. cbn in IH. by rewrite IH.
Qed.

Lemma length_select_outside l r s :
  length (select (outside l r s) s) = mask_sum (outside l r s).
Proof.
  induction s as [|x s IH]; [done|].
  change (outside l r (x :: s)) with ((flt x l || flt r x) :: outside l r s).
  destruct (flt x l || flt r x); cbn [select mask_sum length]; by rewrite IH.
Qed.

Section RdbrFacts.
Variable random : nat → Q.

Lemma repeat_choices (ratio : list (Q * Q)) n w :
  ratio ≠ [] → Forall (λ p, 0 < p.2) ratio →
  repeat_ n (choices random ratio.*1 ratio.*2) w =
  (Ok (map (λ i, [sample ratio (random (drawn w + i))]) (seq 0 n)),
   World (data w) (columns w) (drawn w + n)).
Proof.
  intros Hne Hpos. revert w. induction n as [|n IH]; intros w.
  - cbn. rewrite Nat.add_0_r. by destruct w.
  - cbn [repeat_]. unfold mbind at 1, M_bind at 1.
    rewrite choices_sample by done.
    unfold mbind at 1, M_bind at 1. rewrite IH. cbn.
    rewrite Nat.add_0_r, <- seq_shift, map_map.
    unfold mret, M_ret. rewrite Nat.add_succ_r.
    do 3 f_equal. apply map_ext. intros i. by rewrite Nat.add_succ_r.
Qed.

Lemma repeat_choices_nil n w :
  repeat_ (S n) (choices random [] []) w = (Raise IndexError, w).
Proof. reflexivity. Qed.

Lemma length_draws ratio d n : length (draws random ratio d n) = n.
Proof. unfold draws. by rewrite length_map, length_seq. Qed.

(** The rows [rdbr] of the source, written back by [loc_set_rows]. *)
Lemma rdbr_rows mask basis c s w :
  data w !! c = Some s →
  (rdbr ← repeat_ (mask_sum mask)
            (choices random (value_counts basis).*1 (value_counts basis).*2);
   loc_set_rows mask c rdbr) w =
  match rdbr_fill random mask basis (drawn w) s with
  | Raise e => (Raise e, w)
  | Ok (s', d') => (Ok (), World (<[c := s']> (data w)) (columns w) d')
  end.
Proof.
  intros Hc. unfold rdbr_fill.
  destruct (value_counts basis) as [|p ratio] eqn:Hr.
  - destruct (mask_sum mask) as [|n] eqn:Hn.
    + unfold mbind, M_bind, loc_set_rows. cbn [repeat_ mret M_ret].
      rewrite Hc. cbn. rewrite Hn. cbn.
      rewrite bool_decide_eq_true_2 by done. unfold set_data.
      by rewrite Nat.add_0_r.
    + unfold mbind, M_bind. cbn [fmap list_fmap]. by rewrite repeat_choices_nil.
  - unfold mbind, M_bind. rewrite <- Hr.
    rewrite repeat_choices; [| by rewrite Hr | apply value_counts_pos].
    unfold loc_set_rows. cbn [data columns drawn]. rewrite Hc.
    rewrite (column0_singletons (λ i, sample (value_counts basis) (random (drawn w + i)))).
    fold (draws random (value_counts basis) (drawn w) (mask_sum mask)).
    rewrite length_draws, bool_decide_eq_true_2 by done.
    rewrite Hr. by destruct (mask_sum mask).
Qed.
End RdbrFacts.

Ltac valid_cases H :=
  repeat (apply elem_of_cons in H as [->|H]); [..|by apply elem_of_nil in H].

Ltac eval_decide :=
  repeat match goal with
  | |- context [bool_decide ?P] =>
      let b := eval vm_compute in (bool_decide P) in
      match b with
      | true => change (bool_decide P) with true
      | false => change (bool_decide P) with false
      end
  end.

Ltac run_monad :=
  unfold mbind, M_bind, fmap, M_fmap, mret, M_ret, getitem, loc_set, when, pass,
    raise, return_data, self_columns, set_data.

Ltac run_body Hc :=
  repeat first [progress run_monad | progress eval_decide | rewrite Hc | progress cbn].

Section MethodsArePasses.
Variable random : nat → Q.
Variable sqrt : Q → Q.

Lemma finish_for {A} (l : list A) (f g : A → M ()) w :
  (∀ x w, f x w = g x w) →
  (for_ l f ;; return_data) w = (for_ l g ;; return_data) w.
Proof. intros E. unfold mbind, M_bind. by rewrite (for_ext l f g E). Qed.

Lemma fillnan_passes method w :
  valid_method nan_methods method →
  fillnan random method w = run_passes (nan_pass random method) w.
Proof.
  intros Hv. unfold fillnan, run_passes.
  assert (∀ c w, (λ c : string,
    nans ← isna <$> getitem c;
    when (bool_decide (type method = TInt) || bool_decide (type method = TFloat))
      (loc_set nans c (to_cell method)) ;;
    when (eq_str method "mean")
      (s ← getitem c; loc_set nans c (mean s)) ;;
    when (eq_str method "median")
      (s ← getitem c; loc_set nans c (median s)) ;;
    when (eq_str method "mode")
      (s ← getitem c;
       match mode s !! 0%nat with
       | Some v => loc_set nans c (Some v)
       | None => raise KeyError
       end) ;;
    when (eq_str method "rdbr")
      (ratio ← value_counts <$> getitem c;
       rdbr ← repeat_ (mask_sum nans) (choices random ratio.*1 ratio.*2);
       loc_set_rows nans c rdbr)) c w = run_col (nan_pass random method) c w) as Hbody.
  { clear w. intros c w. unfold run_col, nan_pass, fill.
    destruct (data w !! c) as [s|] eqn:Hc.
    2:{ run_monad. by rewrite Hc. }
    destruct method as [| | z | f | m | | | |]; try done.
    - by run_body Hc.
    - by run_body Hc.
    - unfold valid_method, nan_methods in Hv. valid_cases Hv.
      + by run_body Hc.
      + by run_body Hc.
      + run_body Hc. destruct (mode s !! 0%nat); by run_body Hc.
      + unfold mbind at 1, M_bind at 1, fmap at 1, M_fmap at 1, getitem at 1.
        rewrite Hc. cbn [eq_str type String.eqb Ascii.eqb Bool.eqb].
        eval_decide. cbn [when orb].
        unfold pass at 1 2 3 4. unfold mbind at 1 2 3 4, M_bind at 1 2 3 4.
        cbn [mret M_ret].
        unfold mbind at 1, M_bind at 1, fmap at 1, M_fmap at 1, getitem at 1.
        rewrite Hc. by rewrite (rdbr_rows random _ _ _ _ _ Hc). }
  destruct method as [| | z | f | m | | | |]; try done.
  - run_monad. cbn. eval_decide. cbn. by rewrite (for_ext _ _ _ Hbody).
  - run_monad. cbn. eval_decide. cbn. by rewrite (for_ext _ _ _ Hbody).
  - unfold valid_method, nan_methods in Hv.
    valid_cases Hv; run_monad; cbn; eval_decide; cbn; by rewrite (for_ext _ _ _ Hbody).
Qed.

Lemma fill_outside_pass method c left right s w :
  valid_method outlier_methods method →
  data w !! c = Some s →
  fill_outside random method c left right w =
  match fill random method (outside left right s)
          (select (map negb (outside left right s)) s) (drawn w) s with
  | Raise e => (Raise e, w)
  | Ok (s', d') => (Ok (), World (<[c := s']> (data w)) (columns w) d')
  end.
Proof.
  intros Hv Hc. unfold fill_outside, fill.
  destruct method as [| | z | f | m | | | |]; try done.
  - by run_body Hc.
  - by run_body Hc.
  - unfold valid_method, outlier_methods in Hv. valid_cases Hv.
    + by run_body Hc.
    + by run_body Hc.
    + unfold mbind at 1, M_bind at 1, fmap at 1, M_fmap at 1, getitem at 1.
      rewrite Hc.
      unfold mbind at 1, M_bind at 1, fmap at 1, M_fmap at 1, getitem at 1.
      rewrite Hc. cbn [eq_str type String.eqb Ascii.eqb Bool.eqb].
      eval_decide. cbn [when orb].
      unfold pass at 1 2 3. unfold mbind at 1 2 3, M_bind at 1 2 3.
      cbn [mret M_ret].
      unfold mbind at 1, M_bind at 1, fmap at 1, M_fmap at 1, getitem at 1.
      rewrite Hc, length_select_outside.
      by rewrite (rdbr_rows random _ _ _ _ _ Hc).
Qed.

Lemma filloutlier_checks method k :
  valid_method outlier_methods method → numeric k →
  ∀ w, check_outlier_args method k w = (Ok (), w).
Proof.
  intros Hv [Hk|Hk] w; unfold check_outlier_args;
    (destruct method as [| | z | f | m | | | |]; try done;
     [| |unfold valid_method, outlier_methods in Hv; valid_cases Hv]);
    run_monad; cbn; rewrite Hk; eval_decide; by cbn.
Qed.

Lemma filloutlier_iqr_passes method k w :
  valid_method outlier_methods method → numeric k →
  filloutlier_iqr random method k w =
  run_passes (outlier_pass random (iqr_bounds k) method) w.
Proof.
  intros Hv Hk. unfold filloutlier_iqr, run_passes.
  unfold mbind at 1, M_bind at 1. rewrite filloutlier_checks by done.
  unfold mbind at 1 3, M_bind at 1 3, self_columns. cbv beta iota.
  apply finish_for. clear w. intros c w. unfold run_col.
  unfold fmap at 1, M_fmap at 1, getitem at 1.
  destruct (data w !! c) as [s|] eqn:Hc; [|done].
  unfold mbind at 1, M_bind at 1, fmap at 1, M_fmap at 1, getitem at 1.
  rewrite Hc. by rewrite (fill_outside_pass _ _ _ _ s).
Qed.

Lemma filloutlier_sigma_passes method k w :
  valid_method outlier_methods method → numeric k →
  filloutlier_sigma random sqrt method k w =
  run_passes (outlier_pass random (sigma_bounds sqrt k) method) w.
Proof.
  intros Hv Hk. unfold filloutlier_sigma, run_passes.
  unfold mbind at 1, M_bind at 1. rewrite filloutlier_checks by done.
  unfold mbind at 1 3, M_bind at 1 3, self_columns. cbv beta iota.
  apply finish_for. clear w. intros c w. unfold run_col.
  unfold fmap at 1, M_fmap at 1, getitem at 1.
  destruct (data w !! c) as [s|] eqn:Hc; [|done].
  unfold mbind at 1, M_bind at 1, fmap at 1, M_fmap at 1, getitem at 1.
  rewrite Hc. by rewrite (fill_outside_pass _ _ _ _ s).
Qed.
End MethodsArePasses.

(** ** Passes over columns *)

Lemma run_passes_for T w :
  run_passes T w =
  (match (for_ (columns w) (run_col T) w).1 with
   | Ok _ => Ok (data (for_ (columns w) (run_col T) w).2)
   | Raise e => Raise e
   end, (for_ (columns w) (run_col T) w).2).
Proof.
  unfold run_passes. run_monad.
  by destruct (for_ (columns w) (run_col T) w) as [[[]|e] w'].
Qed.

Section PassFacts.

Variable T : nat → Series → result (Series * nat).

Lemma run_col_columns c w : columns (run_col T c w).2 = columns w.
Proof.
  unfold run_col. destruct (data w !! c); [|done].
  by destruct (T _ _) as [[]|].
Qed.

Lemma run_col_other c c' w :
  c ≠ c' → data (run_col T c w).2 !! c' = data w !! c'.
Proof.
  intros Hne. unfold run_col. destruct (data w !! c); [|done].
  destruct (T _ _) as [[]|]; simpl; [by rewrite lookup_insert_ne|done].
Qed.

Lemma run_col_raise c w e w' : run_col T c w = (Raise e, w') → w' = w.
Proof.
  unfold run_col. destruct (data w !! c); [|congruence].
  destruct (T _ _) as [[]|]; congruence.
Qed.

Lemma run_col_ok c w w' :
  run_col T c w = (Ok (), w') →
  ∃ s s' d', data w !! c = Some s ∧ T (drawn w) s = Ok (s', d') ∧
    w' = World (<[c := s']> (data w)) (columns w) d'.
Proof.
  unfold run_col. destruct (data w !! c) as [s|] eqn:Hs; [|congruence].
  destruct (T (drawn w) s) as [[s' d']|] eqn:HT; [|congruence].
  intros [= <-]. by exists s, s', d'.
Qed.

Lemma passes_columns l w : columns (for_ l (run_col T) w).2 = columns w.
Proof.
  apply (for_inv (λ w', columns w' = columns w)); [|done].
  intros c w1 <-. apply run_col_columns.
Qed.


(** A property of columns that every pass keeps holds between the table
    before and the table after the passes. *)
Section Preorder.
Variable R : Series → Series → Prop.
Hypothesis R_refl : ∀ s, R s s.
Hypothesis R_trans : ∀ s1 s2 s3, R s1 s2 → R s2 s3 → R s1 s3.
Hypothesis T_R : ∀ s s', image T s s' → R s s'.

Lemma passes_related l w : related R (data w) (data (for_ l (run_col T) w).2).
Proof.
  apply (for_inv (λ w', related R (data w) (data w'))).
  - intros c w1 Hrel. destruct (run_col T c w1) as [[[]|e] w2] eqn:Hrun; simpl.
    + apply run_col_ok in Hrun as (s & s' & d' & Hs & HT & ->). simpl.
      intros c'. specialize (Hrel c'). destruct (decide (c = c')) as [<-|Hne].
      * rewrite lookup_insert_eq. rewrite Hs in Hrel.
        destruct (data w !! c) as [s0|]; [|done].
        apply R_trans with s; [done|]. apply T_R. by exists (drawn w1), d'.
      * by rewrite lookup_insert_ne.
    + by apply run_col_raise in Hrun as ->.
  - intros c. destruct (data w !! c); [apply R_refl|done].
Qed.
End Preorder.



(** When what a pass writes is left as it is by a later pass, the columns
    may be listed any number of times. *)
Section Settled.
Hypothesis T_settled : ∀ s s', image T s s' → ∀ d, T d s' = Ok (s', d).

Lemma run_col_settled c c' s' w :
  (∃ s, image T s s') → data w !! c = Some s' →
  data (run_col T c' w).2 !! c = Some s'.
Proof.
  intros [s Him] Hc. destruct (decide (c' = c)) as [->|Hne].
  - unfold run_col. rewrite Hc, (T_settled s s' Him). simpl.
    by rewrite lookup_insert_eq.
  - by rewrite run_col_other.
Qed.

Lemma passes_settled l c s' w :
  (∃ s, image T s s') → data w !! c = Some s' →
  data (for_ l (run_col T) w).2 !! c = Some s'.
Proof.
  intros Him. apply (for_inv (λ w', data w' !! c = Some s')).
  intros c' w1. by apply run_col_settled.
Qed.

Lemma passes_image l w w' c :
  for_ l (run_col T) w = (Ok (), w') → c ∈ l →
  (∃ s s', data w !! c = Some s ∧ image T s s' ∧ data w' !! c = Some s').
Proof.
  revert w. induction l as [|c0 l IH]; intros w Hrun Hc.
  { by apply elem_of_nil in Hc. }
  rewrite for_cons in Hrun.
  destruct (run_col T c0 w) as [[[]|e] w1] eqn:Hrun0; [|done].
  apply run_col_ok in Hrun0 as (s & s' & d' & Hs & HT & ->).
  assert (image T s s') as Him by (by exists (drawn w), d').
  assert (w' = (for_ l (run_col T) (World (<[c0:=s']> (data w)) (columns w) d')).2) as Hw'
    by (by rewrite Hrun).
  destruct (decide (c = c0)) as [->|Hne].
  - exists s, s'. split; [done|]. split; [done|]. rewrite Hw'.
    apply passes_settled; [by exists s|]. simpl. by rewrite lookup_insert_eq.
  - apply elem_of_cons in Hc as [?|Hc]; [done|].
    destruct (IH _ Hrun Hc) as (s1 & s1' & H1 & H2 & H3).
    exists s1, s1'. simpl in H1. by rewrite lookup_insert_ne in H1.
Qed.

(** Running the passes again changes nothing. *)

Lemma passes_again l w :
  for_ l (run_col T) (for_ l (run_col T) w).2 = for_ l (run_col T) w.
Proof.
  revert w. induction l as [|c0 l IH]; intros w; [done|].
  rewrite (for_cons c0 l _ w).
  destruct (run_col T c0 w) as [[[]|e] w1] eqn:Hrun0.
  - pose proof Hrun0 as Hrun. apply run_col_ok in Hrun0 as (s & s' & d' & Hs & HT & ->).
    set (w1 := World (<[c0:=s']> (data w)) (columns w) d') in *.
    set (w2 := (for_ l (run_col T) w1).2).
    rewrite for_cons.
    assert (data w2 !! c0 = Some s') as Hc0.
    { apply passes_settled; [exists s; by exists (drawn w), d'|].
      simpl. by rewrite lookup_insert_eq. }
    assert (run_col T c0 w2 = (Ok (), w2)) as ->.
    { unfold run_col. rewrite Hc0.
      rewrite (T_settled s s') by (by exists (drawn w), d').
      rewrite insert_id by done. by destruct w2. }
    apply IH.
  - pose proof (run_col_raise _ _ _ _ Hrun0) as ->. cbn [snd].
    by rewrite for_cons, Hrun0.
Qed.
End Settled.

End PassFacts.

(** ** Masks and assignments *)

Lemma length_assign mask v s : length (assign mask v s) = length s.
Proof.
  revert mask. induction s as [|x s IH]; intros [|b mask]; simpl; try done.
  by rewrite IH.
Qed.

Lemma length_assign_seq mask vs s : length (assign_seq mask vs s) = length s.
Proof.
  revert mask vs. induction s as [|x s IH]; intros [|[] mask] vs; simpl; try done.
  - destruct vs; simpl; by rewrite IH.
  - by rewrite IH.
Qed.

Lemma lookup_assign_true mask v s i :
  mask !! i = Some true → is_Some (s !! i) → assign mask v s !! i = Some v.
Proof.
  revert mask i. induction s as [|x s IH]; intros [|b mask] [|i] Hm [y Hs]; simpl in *; try done.
  - by injection Hm as ->.
  - apply IH; [done|by exists y].
Qed.

Lemma lookup_assign_false mask v s i :
  mask !! i = Some false → assign mask v s !! i = s !! i.
Proof.
  revert mask i. induction s as [|x s IH]; intros [|b mask] [|i] Hm; simpl in *; try done.
  - by injection Hm as ->.
  - by apply IH.
Qed.

Lemma lookup_assign_seq_false mask vs s i :
  mask !! i = Some false → assign_seq mask vs s !! i = s !! i.
Proof.
  revert mask vs i. induction s as [|x s IH]; intros mask vs i Hm.
  { by destruct mask as [|[] ?]. }
  destruct mask as [|b mask], i as [|i]; simpl in *; try done.
  - injection Hm as ->. done.
  - destruct b; [destruct vs|]; simpl; by apply IH.
Qed.



Lemma lookup_isna s i :
  isna s !! i = (λ x : cell, match x with None => true | Some _ => false end) <$> s !! i.
Proof. revert i. induction s as [|x s IH]; intros [|i]; simpl; done. Qed.

Lemma lookup_isna_true s i : isna s !! i = Some true ↔ s !! i = Some None.
Proof.
  rewrite lookup_isna. destruct (s !! i) as [[x|]|]; cbn; split; intros [=]; done.
Qed.

Lemma lookup_isna_false s i x : s !! i = Some (Some x) → isna s !! i = Some false.
Proof. intros H. by rewrite lookup_isna, H. Qed.

Lemma lookup_outside l r s i :
  outside l r s !! i = (λ x, flt x l || flt r x) <$> s !! i.
Proof. revert i. induction s as [|x s IH]; intros [|i]; simpl; done. Qed.

Lemma outside_nan l r s i : s !! i = Some None → outside l r s !! i = Some false.
Proof.
  intros H. rewrite lookup_outside, H. simpl. by destruct r.
Qed.

Lemma assign_isna_nan s : assign (isna s) None s = s.
Proof.
  induction s as [|[x|] s IH]; simpl; [done|..]; by rewrite IH.
Qed.

Lemma assign_isna_present v s : Forall is_Some s → assign (isna s) v s = s.
Proof.
  induction 1 as [|x s [y ->] Hs IH]; simpl; [done|]. by rewrite IH.
Qed.

Lemma assign_seq_nil mask s : assign_seq mask [] s = s.
Proof.
  revert mask. induction s as [|x s IH]; intros [|[] mask]; simpl; try done;
    by rewrite IH.
Qed.

Lemma mask_sum_isna_present s : Forall is_Some s → mask_sum (isna s) = 0%nat.
Proof. induction 1 as [|x s [y ->] Hs IH]; simpl; [done|]. by rewrite IH. Qed.

Lemma assign_isna_fills v s : Forall is_Some (assign (isna s) (Some v) s).
Proof.
  induction s as [|[x|] s IH]; simpl; constructor; eauto.
Qed.

Lemma assign_seq_isna_fills vs s :
  Forall is_Some vs → length vs = mask_sum (isna s) →
  Forall is_Some (assign_seq (isna s) vs s).
Proof.
  revert vs. induction s as [|[x|] s IH]; intros vs Hvs Hlen; simpl in *.
  - constructor.
  - constructor; [eauto|]. by apply IH.
  - destruct Hvs as [|v vs Hv Hvs]; simpl in *; [done|].
    constructor; [done|]. apply IH; [done|lia].
Qed.

Lemma dropna_present s : Forall is_Some s → s ≠ [] → dropna s ≠ [].
Proof. intros [|x s' [y ->] Hs]; done. Qed.

Lemma dropna_Some l : dropna (Some <$> l) = l.
Proof. induction l as [|x l IH]; [done|]. cbn. f_equal. apply IH. Qed.


(** ** Sorting and the mode *)

Lemma insert_sorted_perm x l : insert_sorted x l ≡ₚ x :: l.
Proof.
  induction l as [|y l IH]; simpl; [done|].
  destruct (Qle_bool x y); [done|]. rewrite IH. apply Permutation_swap.
Qed.

Lemma sort_perm l : sort l ≡ₚ l.
Proof.
  induction l as [|x l IH]; simpl; [done|]. by rewrite insert_sorted_perm, IH.
Qed.

Lemma sort_head_le l v r : sort l = v :: r → Forall (Qle v) l.
Proof.
  revert v r. induction l as [|x l IH]; intros v r Hs; simpl in *; [done|].
  destruct (sort l) as [|v' r'] eqn:Hl.
  - assert (l = []) as ->.
    { apply Permutation_nil_r. by rewrite <- Hl, sort_perm. }
    simpl in Hs. injection Hs as <- <-. constructor; [apply Qle_refl|constructor].
  - specialize (IH v' r' eq_refl). simpl in Hs.
    destruct (Qle_bool x v') eqn:Hle.
    + injection Hs as <- <-. apply Qle_bool_iff in Hle.
      constructor; [apply Qle_refl|].
      eapply Forall_impl; [exact IH|]. intros y Hy. by apply Qle_trans with v'.
    + injection Hs as <- <-. constructor; [|done].
      apply Qlt_le_weak, Qnot_le_lt. intros H. apply Qle_bool_iff in H. congruence.
Qed.

Lemma count_proper x y l : Qeq_bool x y = true → count x l = count y l.
Proof.
  intros Hxy. apply Qeq_bool_iff in Hxy. unfold count. f_equal.
  apply list_filter_iff. intros z. rewrite !Qeq_bool_iff. by rewrite Hxy.
Qed.

Lemma distinct_representative x l :
  x ∈ l → ∃ y, y ∈ distinct l ∧ Qeq_bool y x = true.
Proof.
  induction l as [|h l IH]; intros Hx; [by apply elem_of_nil in Hx|].
  apply elem_of_cons in Hx as [->|Hx].
  - exists h. split; [left|]. apply Qeq_bool_iff. reflexivity.
  - destruct (IH Hx) as (y & Hy & Hyx). simpl.
    destruct (Qeq_bool h y) eqn:Hhy.
    + exists h. split; [left|]. apply Qeq_bool_iff.
      apply Qeq_bool_iff in Hhy, Hyx. by rewrite Hhy.
    + exists y. split; [|done]. right. by apply list_elem_of_filter.
Qed.

Lemma max_count_ge_aux (f : Q → nat) y l :
  y ∈ l → (f y ≤ foldr Nat.max O (map f l))%nat.
Proof.
  induction l as [|x l IH]; intros Hy; [by apply elem_of_nil in Hy|].
  simpl. apply elem_of_cons in Hy as [->|Hy]; [lia|]. specialize (IH Hy). lia.
Qed.

Lemma max_count_ge y l : y ∈ l → (count y l ≤ max_count l)%nat.
Proof. apply (max_count_ge_aux (λ x, count x l)). Qed.

Lemma max_count_attained_aux (f : Q → nat) l :
  l ≠ [] → ∃ y, y ∈ l ∧ f y = foldr Nat.max O (map f l).
Proof.
  induction l as [|x l IH]; [done|]. intros _. simpl.
  destruct l as [|x' l'].
  - exists x. split; [left|]. simpl. lia.
  - destruct IH as (y & Hy & Hfy); [done|].
    destruct (Nat.max_spec (f x) (foldr Nat.max O (map f (x' :: l')))) as [[_ ->]|[_ ->]].
    + exists y. split; [by right|done].
    + exists x. split; [left|done].
Qed.

Lemma max_count_attained l : l ≠ [] → ∃ y, y ∈ l ∧ count y l = max_count l.
Proof. apply (max_count_attained_aux (λ x, count x l)). Qed.

Lemma elem_of_mode v s :
  v ∈ mode s ↔ v ∈ distinct (dropna s) ∧ count v (dropna s) = max_count (dropna s).
Proof.
  unfold mode. rewrite sort_perm, list_elem_of_filter. tauto.
Qed.

Lemma mode_first v s :
  mode s !! 0%nat = Some v →
  v ∈ dropna s ∧
  (∀ y, y ∈ dropna s → (count y (dropna s) ≤ count v (dropna s))%nat) ∧
  (∀ y, y ∈ dropna s →
     (∀ z, z ∈ dropna s → (count z (dropna s) ≤ count y (dropna s))%nat) →
     v <= y).
Proof.
  intros H0.
  assert (v ∈ mode s) as Hv by (by apply list_elem_of_lookup_2 in H0).
  apply elem_of_mode in Hv as [Hd Hmax].
  split; [by apply distinct_subseteq|]. split.
  - intros y Hy. rewrite Hmax. by apply max_count_ge.
  - intros y Hy Hbest.
    destruct (distinct_representative y _ Hy) as (y' & Hy' & Heq).
    assert (count y' (dropna s) = max_count (dropna s)) as Hy'max.
    { rewrite (count_proper _ _ _ Heq). apply Nat.le_antisymm; [by apply max_count_ge|].
      destruct (max_count_attained (dropna s)) as (z & Hz & <-).
      { intros E. rewrite E in Hy. by apply elem_of_nil in Hy. }
      by apply Hbest. }
    assert (y' ∈ filter (λ x, count x (dropna s) = max_count (dropna s)) (distinct (dropna s)))
      as Hin by (by apply list_elem_of_filter).
    unfold mode in H0.
    destruct (sort _) as [|v0 r] eqn:Hs; [done|]. injection H0 as ->.
    pose proof (sort_head_le _ _ _ Hs) as Hle.
    rewrite Forall_forall in Hle. specialize (Hle y' Hin).
    apply Qeq_bool_iff in Heq. by rewrite <- Heq.
Qed.

Lemma mode_nonempty s : dropna s ≠ [] → is_Some (mode s !! 0%nat).
Proof.
  intros Hne. destruct (max_count_attained _ Hne) as (y & Hy & Hmax).
  destruct (distinct_representative y _ Hy) as (y' & Hy' & Heq).
  assert (y' ∈ mode s) as Hin.
  { apply elem_of_mode. split; [done|]. by rewrite (count_proper _ _ _ Heq). }
  destruct (mode s); [by apply elem_of_nil in Hin|by eexists].
Qed.

Lemma mode_empty s : dropna s = [] → mode s !! 0%nat = None.
Proof. intros H. unfold mode. by rewrite H. Qed.

(** ** What a pass writes *)

Section FillFacts.
Variable random : nat → Q.


Lemma draws_present ratio d n : Forall is_Some (draws random ratio d n).
Proof.
  unfold draws. apply Forall_forall. intros x Hx.
  change (map ?f ?l) with (f <$> l) in Hx.
  apply list_elem_of_fmap in Hx as (i & -> & _). by eexists.
Qed.



Lemma rdbr_fill_ok mask basis d s s' d' :
  rdbr_fill random mask basis d s = Ok (s', d') →
  s' = assign_seq mask (draws random (value_counts basis) d (mask_sum mask)) s ∧
  d' = (d + mask_sum mask)%nat ∧
  (mask_sum mask = 0%nat ∨ dropna basis ≠ []).
Proof.
  unfold rdbr_fill. destruct (mask_sum mask) as [|n] eqn:Hn.
  - intros [= <- <-]. auto.
  - destruct (value_counts basis) as [|p r] eqn:Hr; [done|].
    intros [= <- <-]. split; [done|]. split; [done|]. right.
    rewrite <- value_counts_nil. by rewrite Hr.
Qed.

(** Whatever the method, a pass leaves the rows outside the mask alone. *)
Lemma fill_frame method mask basis d s s' d' :
  fill random method mask basis d s = Ok (s', d') →
  length s' = length s ∧ ∀ i, mask !! i = Some false → s' !! i = s !! i.
Proof.
  assert (∀ v, length (assign mask v s) = length s ∧
               ∀ i, mask !! i = Some false → assign mask v s !! i = s !! i) as Hassign.
  { intros v. split; [apply length_assign|]. intros i. apply lookup_assign_false. }
  unfold fill. destruct method as [| | z | f | m | | | |];
    try (intros [= <- <-]; by auto).
  destruct (String.eqb m "mean"); [intros [= <- <-]; by auto|].
  destruct (String.eqb m "median"); [intros [= <- <-]; by auto|].
  destruct (String.eqb m "mode").
  { destruct (mode basis !! 0%nat); [intros [= <- <-]; by auto|done]. }
  destruct (String.eqb m "rdbr"); [|intros [= <- <-]; by auto].
  intros (-> & _ & _)%rdbr_fill_ok. split; [apply length_assign_seq|].
  intros i. apply lookup_assign_seq_false.
Qed.


(** What [fillnan] writes into a column is left as it is by a later pass
    of [fillnan] with the same method. *)
Lemma nan_pass_settled method s s' :
  image (nan_pass random method) s s' →
  ∀ d, nan_pass random method d s' = Ok (s', d).
Proof.
  assert (∀ v v', (v = None → v' = None) →
     assign (isna (assign (isna s) v s)) v' (assign (isna s) v s) = assign (isna s) v s)
    as Hassign.
  { intros [x|] v' Hv.
    - apply assign_isna_present, assign_isna_fills.
    - by rewrite (Hv eq_refl), !assign_isna_nan. }
  intros (d0 & d' & HT) d. unfold nan_pass, fill in *.
  destruct method as [| | z | f | m | | | |];
    try (injection HT as <- <-; done).
  - injection HT as <- <-. by rewrite Hassign.
  - injection HT as <- <-. by rewrite Hassign.
  - destruct (String.eqb m "mean").
    { injection HT as <- <-. rewrite Hassign; [done|].
      intros E. by rewrite E, assign_isna_nan. }
    destruct (String.eqb m "median").
    { injection HT as <- <-. rewrite Hassign; [done|].
      intros E. by rewrite E, assign_isna_nan. }
    destruct (String.eqb m "mode").
    { destruct (mode s !! 0%nat) as [v|] eqn:Hmode; [|done].
      injection HT as <- <-.
      destruct (mode_nonempty (assign (isna s) (Some v) s)) as [v' ->].
      { apply dropna_present; [apply assign_isna_fills|].
        apply mode_first in Hmode as (Hv & _). intros E.
        apply (f_equal length) in E. rewrite length_assign in E.
        destruct s; [by apply elem_of_nil in Hv|done]. }
      by rewrite Hassign. }
    destruct (String.eqb m "rdbr"); [|injection HT as <- <-; done].
    apply rdbr_fill_ok in HT as (-> & _ & _).
    set (s' := assign_seq _ _ _).
    assert (Forall is_Some s') as Hs'.
    { apply assign_seq_isna_fills; [apply draws_present|apply length_draws]. }
    unfold rdbr_fill. rewrite (mask_sum_isna_present _ Hs').
    unfold draws. simpl. by rewrite assign_seq_nil, Nat.add_0_r.
Qed.

End FillFacts.

(** ** The methods return *)

Lemma passes_return T (P : Series → Prop) l w :
  (∀ d s, P s → ∃ s' d', T d s = Ok (s', d') ∧ P s') →
  (∀ c, c ∈ l → ∃ s, data w !! c = Some s ∧ P s) →
  ∃ w', for_ l (run_col T) w = (Ok (), w').
Proof.
  intros HT. revert w. induction l as [|c0 l IH]; intros w Hcols.
  { by exists w. }
  destruct (Hcols c0) as (s & Hs & HP); [left|].
  destruct (HT (drawn w) s HP) as (s' & d' & HTs & HP').
  rewrite for_cons. unfold run_col at 1. rewrite Hs, HTs.
  apply IH. intros c Hc. simpl.
  destruct (decide (c0 = c)) as [<-|Hne].
  - exists s'. by rewrite lookup_insert_eq.
  - rewrite lookup_insert_ne by done. apply Hcols. by right.
Qed.

Lemma run_passes_ok T w t w' :
  run_passes T w = (Ok t, w') ↔
  for_ (columns w) (run_col T) w = (Ok (), w') ∧ t = data w'.
Proof.
  rewrite run_passes_for.
  destruct (for_ (columns w) (run_col T) w) as [[[]|e] w1]; simpl; split.
  - by intros [= <- <-].
  - by intros [[= <-] ->].
  - done.
  - by intros [[=] _].
Qed.

Section FillnanFacts.
Variable random : nat → Q.

(** After a call of [fillnan] that returns, each configured column is what
    one pass makes of the column the call found. *)
Lemma fillnan_image method w t w' c :
  valid_method nan_methods method →
  fillnan random method w = (Ok t, w') → c ∈ columns w →
  ∃ s s', data w !! c = Some s ∧ image (nan_pass random method) s s' ∧
    t !! c = Some s'.
Proof.
  intros Hv Hrun Hc. rewrite fillnan_passes in Hrun by done.
  apply run_passes_ok in Hrun as [Hrun ->].
  eapply passes_image; [apply nan_pass_settled|done|done].
Qed.

Lemma fillnan_return method (P : Series → Prop) w :
  valid_method nan_methods method →
  (∀ d s, P s → ∃ s' d', nan_pass random method d s = Ok (s', d') ∧ P s') →
  (∀ c, c ∈ columns w → ∃ s, data w !! c = Some s ∧ P s) →
  ∃ t w', fillnan random method w = (Ok t, w').
Proof.
  intros Hv HT Hcols.
  destruct (passes_return _ P (columns w) w HT Hcols) as [w' Hw'].
  exists (data w'), w'. rewrite fillnan_passes by done. by apply run_passes_ok.
Qed.

End FillnanFacts.

(** ** The frequencies add up to one *)


Lemma filter_all {A} (P : A → Prop) `{∀ x, Decision (P x)} (l : list A) :
  (∀ x, x ∈ l → P x) → filter P l = l.
Proof.
  induction l as [|x l IH]; intros Hl; [done|].
  rewrite filter_cons_True by (apply Hl; left). f_equal. apply IH. intros y Hy. apply Hl. by right.
Qed.







(** ** The value a random number selects *)






(** ** Argument checks *)

Lemma in_strs_spec m names : in_strs (PyStr m) names = true ↔ m ∈ names.
Proof.
  unfold in_strs. rewrite existsb_exists. split.
  - intros (x & Hx & Heq). simpl in Heq. apply String.eqb_eq in Heq as ->.
    by apply list_elem_of_In.
  - intros Hm. exists m. split; [by apply list_elem_of_In|]. simpl. apply String.eqb_refl.
Qed.

Lemma in_strs_valid m names :
  in_strs (PyStr m) names = true ↔ valid_method names (PyStr m).
Proof. apply in_strs_spec. Qed.

Ltac not_in_list :=
  let H := fresh in
  intros H; repeat (apply elem_of_cons in H as [?|H]; [done|]);
  by apply elem_of_nil in H.

Section Checks.
Variable random : nat → Q.
Variable sqrt : Q → Q.

Lemma fillnan_type_error method w :
  type method ∉ [TStr; TInt; TFloat] →
  fillnan random method w = (Raise TypeError, w).
Proof.
  intros Ht. unfold fillnan. run_monad. by rewrite bool_decide_eq_true_2.
Qed.

Lemma fillnan_value_error m w :
  m ∉ nan_methods → fillnan random (PyStr m) w = (Raise ValueError, w).
Proof.
  intros Hm. unfold fillnan. run_monad. cbn [type]. eval_decide.
  destruct (in_strs (PyStr m) _) eqn:E; [|done].
  by apply in_strs_spec in E.
Qed.

Lemma outlier_type_error method k w :
  type method ∉ [TStr; TInt; TFloat] →
  check_outlier_args method k w = (Raise TypeError, w).
Proof.
  intros Ht. unfold check_outlier_args. run_monad. by rewrite bool_decide_eq_true_2.
Qed.

Lemma outlier_k_type_error method k w :
  ¬ numeric k → check_outlier_args method k w = (Raise TypeError, w).
Proof.
  intros Hk. unfold check_outlier_args. run_monad.
  destruct (bool_decide (type method ∉ [TStr; TInt; TFloat])); [done|].
  rewrite (bool_decide_eq_true_2 (type k ∉ [TInt; TFloat])); [done|].
  intros Hin. apply Hk. unfold numeric.
  apply elem_of_cons in Hin as [?|Hin]; [by left|].
  apply elem_of_cons in Hin as [?|Hin]; [by right|]. by apply elem_of_nil in Hin.
Qed.

Lemma outlier_value_error m k w :
  numeric k → m ∉ outlier_methods →
  check_outlier_args (PyStr m) k w = (Raise ValueError, w).
Proof.
  intros Hk Hm. unfold check_outlier_args. run_monad. cbn [type]. eval_decide.
  rewrite (bool_decide_eq_false_2 (type k ∉ [TInt; TFloat])).
  2:{ intros Hn. apply Hn. destruct Hk as [-> | ->]; [left|right; left]. }
  destruct (in_strs (PyStr m) _) eqn:E; [|done].
  by apply in_strs_spec in E.
Qed.

Lemma filloutlier_raise r method k w e :
  check_outlier_args method k w = (Raise e, w) →
  filloutlier random sqrt r method k w = (Raise e, w).
Proof.
  intros H. destruct r; unfold filloutlier, filloutlier_iqr, filloutlier_sigma;
    unfold mbind at 1, M_bind at 1; by rewrite H.
Qed.

Lemma filloutlier_passes r method k w :
  valid_method outlier_methods method → numeric k →
  filloutlier random sqrt r method k w =
  run_passes (outlier_pass random (bounds_of sqrt r k) method) w.
Proof.
  destruct r; [apply filloutlier_iqr_passes|apply filloutlier_sigma_passes].
Qed.

Lemma numeric_dec k : {numeric k} + {¬ numeric k}.
Proof.
  unfold numeric. destruct k; (left; by eauto) || (right; intros [?|?]; done).
Qed.

Lemma valid_method_dec names method :
  {valid_method names method} + {¬ valid_method names method}.
Proof.
  destruct method; simpl; try (by left); try (by right; auto).
  exact (decide _).
Qed.


Lemma filloutlier_checked r method k w :
  (valid_method outlier_methods method ∧ numeric k) ∨
  ∃ e, filloutlier random sqrt r method k w = (Raise e, w).
Proof.
  destruct (numeric_dec k) as [Hk|Hk].
  2:{ right. exists TypeError. by apply filloutlier_raise, outlier_k_type_error. }
  destruct (valid_method_dec outlier_methods method) as [Hv|Hv]; [by left|right].
  destruct method; try (by exfalso; apply Hv);
    try (exists TypeError; apply filloutlier_raise, outlier_type_error; not_in_list).
  exists ValueError. by apply filloutlier_raise, outlier_value_error.
Qed.

End Checks.

(** ** Outliers *)




Lemma quantile_skips_nan q s : quantile q s = quantile q (Some <$> dropna s).
Proof. unfold quantile. by rewrite dropna_Some. Qed.

Lemma mean_skips_nan s : mean s = mean (Some <$> dropna s).
Proof. unfold mean. by rewrite dropna_Some. Qed.

Lemma std_skips_nan sqrt s : std sqrt s = std sqrt (Some <$> dropna s).
Proof. unfold std. by rewrite dropna_Some. Qed.

Section OutlierFacts.
Variable random : nat → Q.
Variable sqrt : Q → Q.

(** A missing entry is no outlier, so no pass writes it. *)
Lemma outlier_pass_keeps_nan bounds method s s' :
  image (outlier_pass random bounds method) s s' →
  length s' = length s ∧ ∀ i, s !! i = Some None → s' !! i = Some None.
Proof.
  intros (d & d' & HT). unfold outlier_pass in HT.
  apply fill_frame in HT as [Hlen Hframe]. split; [done|].
  intros i Hi. rewrite Hframe; [done|]. unfold outliers. by apply outside_nan.
Qed.

Lemma filloutlier_keeps_nan r method k w c s i :
  data w !! c = Some s → s !! i = Some None →
  ∃ s', data (filloutlier random sqrt r method k w).2 !! c = Some s' ∧
    s' !! i = Some None.
Proof.
  intros Hs Hi.
  destruct (filloutlier_checked random sqrt r method k w) as [[Hv Hk]|[e ->]].
  2:{ by exists s. }
  rewrite filloutlier_passes, run_passes_for by done. cbn [snd].
  set (w' := (for_ (columns w)
                (run_col (outlier_pass random (bounds_of sqrt r k) method)) w).2).
  assert (related (λ s s', length s' = length s ∧
                    ∀ i, s !! i = Some None → s' !! i = Some None)
            (data w)
            (data w'))
    as Hrel.
  { apply passes_related.
    - by intros s0.
    - intros s1 s2 s3 [L1 H1] [L2 H2]. split; [congruence|].
      intros j Hj. by apply H2, H1.
    - apply outlier_pass_keeps_nan. }
  specialize (Hrel c). rewrite Hs in Hrel.
  destruct (data w' !! c) as [s'|]; [|done]. exists s'. split; [done|]. by apply Hrel.
Qed.

End OutlierFacts.

(** ** Objects *)

Lemma call_frame self m p b :
  b ≠ self_data self → heap (call self m p).2 !! b = heap p !! b.
Proof.
  intros Hb. unfold call. destruct (heap p !! self_data self) as [t|]; [|done].
  destruct (m _) as [r w]. simpl. by rewrite lookup_insert_ne.
Qed.

Lemma calls_frame random sqrt self os p b :
  b ≠ self_data self → heap (calls random sqrt self os p) !! b = heap p !! b.
Proof.
  intros Hb. revert p. induction os as [|o os IH]; intros p; simpl; [done|].
  by rewrite IH, call_frame.
Qed.

Lemma init_ok data cols h inst h1 :
  init data cols h = (Ok inst, h1) →
  ∃ a, data = PyDataFrame a ∧ self_data inst = fresh (dom h) ∧
    self_cols inst = elements_of cols ∧
    h1 = partial_alter (λ _, h !! a) (fresh (dom h)) h.
Proof.
  unfold init. destruct (bool_decide (type data ≠ TDataFrame)); [done|].
  destruct (bool_decide (type cols ∉ [TIndex; TList; TTuple])); [done|].
  destruct data; try done. intros [= <- <-]. by eexists.
Qed.

(** * The claims *)

(** C3.  When every configured column is a column of the table,
    [fillnan("mean")] returns, and in the table it returns every cell of a
    configured column that was missing before the call holds the mean of the
    column as the call found it (the mean of its present values). *)
Theorem fillnan_mean_fills_with_the_mean_before random w :
  (∀ c, c ∈ columns w → is_Some (data w !! c)) →
  ∃ t w', fillnan random (PyStr "mean") w = (Ok t, w') ∧
    ∀ c, c ∈ columns w →
      ∃ s s', data w !! c = Some s ∧ t !! c = Some s' ∧
        length s' = length s ∧
        ∀ i, s !! i = Some None → s' !! i = Some (mean s).
Proof.
  intros Hcols.
  assert (valid_method nan_methods (PyStr "mean")) as Hv by (by left).
  destruct (fillnan_return random (PyStr "mean") (λ _, True) w Hv) as (t & w' & Hrun).
  { intros d s _. by eexists _, _. }
  { intros c Hc. destruct (Hcols c Hc) as [s Hs]. by exists s. }
  exists t, w'. split; [done|]. intros c Hc.
  destruct (fillnan_image random _ _ _ _ c Hv Hrun Hc) as (s & s' & Hs & (d & d' & HT) & Ht).
  exists s, s'. split; [done|]. split; [done|].
  injection HT as <- <-. split; [apply length_assign|].
  intros i Hi. apply lookup_assign_true; [by apply lookup_isna_true|by eexists].
Qed.

(** C8.  When every configured column is a column of the table with a
    present value, [fillnan("mode")] returns, and every cell of a configured
    column that was missing before the call holds the first mode [v] of the
    column: a present value, at least as frequent as every present value,
    and the least of the values that frequent. *)
Theorem fillnan_mode_fills_with_the_first_mode random w :
  (∀ c, c ∈ columns w → ∃ s, data w !! c = Some s ∧ dropna s ≠ []) →
  ∃ t w', fillnan random (PyStr "mode") w = (Ok t, w') ∧
    ∀ c, c ∈ columns w →
      ∃ s s' v, data w !! c = Some s ∧ t !! c = Some s' ∧
        v ∈ dropna s ∧
        (∀ y, y ∈ dropna s → (count y (dropna s) ≤ count v (dropna s))%nat) ∧
        (∀ y, y ∈ dropna s →
           (∀ z, z ∈ dropna s → (count z (dropna s) ≤ count y (dropna s))%nat) →
           v <= y) ∧
        length s' = length s ∧
        ∀ i, s !! i = Some None → s' !! i = Some (Some v).
Proof.
  intros Hcols.
  assert (valid_method nan_methods (PyStr "mode")) as Hv by (by right; right; left).
  destruct (fillnan_return random (PyStr "mode") (λ s, dropna s ≠ []) w Hv)
    as (t & w' & Hrun); [|done|].
  { intros d s Hs. destruct (mode_nonempty s Hs) as [v Hmode].
    exists (assign (isna s) (Some v) s), d. unfold nan_pass. cbn. rewrite Hmode.
    split; [done|]. apply dropna_present; [apply assign_isna_fills|].
    intros E. apply (f_equal length) in E. rewrite length_assign in E.
    by destruct s. }
  exists t, w'. split; [done|]. intros c Hc.
  destruct (fillnan_image random _ _ _ _ c Hv Hrun Hc) as (s & s' & Hs & (d & d' & HT) & Ht).
  unfold nan_pass in HT. cbn in HT.
  destruct (mode s !! 0%nat) as [v|] eqn:Hmode; [|done]. injection HT as <- <-.
  destruct (mode_first v s Hmode) as (H1 & H2 & H3).
  exists s, (assign (isna s) (Some v) s), v. repeat (split; [done|]).
  split; [apply length_assign|].
  intros i Hi. apply lookup_assign_true; [by apply lookup_isna_true|by eexists].
Qed.

(** C9.  A second [fillnan(0)] right after the first returns or raises as
    the first did and leaves the stored table, and the rest of the state, as
    the first left it; when the first returns, no configured column of the
    table has a missing entry left. *)
Theorem fillnan_zero_twice random w :
  fillnan random (PyInt 0) (fillnan random (PyInt 0) w).2 = fillnan random (PyInt 0) w ∧
  ∀ t, (fillnan random (PyInt 0) w).1 = Ok t →
    ∀ c, c ∈ columns w → ∃ s', t !! c = Some s' ∧ Forall is_Some s'.
Proof.
  assert (valid_method nan_methods (PyInt 0)) as Hv by done.
  split.
  - rewrite !fillnan_passes by done. rewrite !run_passes_for. cbn [snd].
    rewrite passes_columns.
    by rewrite (passes_again _ (nan_pass_settled random (PyInt 0))).
  - intros t Ht c Hc.
    destruct (fillnan random (PyInt 0) w) as [r w'] eqn:Hrun. simpl in Ht. subst r.
    destruct (fillnan_image random _ _ _ _ c Hv Hrun Hc)
      as (s & s' & Hs & (d & d' & HT) & Ht).
    exists s'. split; [done|]. injection HT as <- <-. apply assign_isna_fills.
Qed.



(** C5.  The quantiles, the mean and the standard deviation of a column are
    those of its present values; a missing entry is never flagged as an
    outlier; and an entry of the stored table that is missing before a call
    of [filloutlier_iqr] or [filloutlier_sigma] is missing after it, whatever
    the method and [k], and whether the call returns or raises. *)
Theorem filloutlier_leaves_missing_entries_missing random sqrt r method k w c s i :
  data w !! c = Some s → s !! i = Some None →
  (∀ q, quantile q s = quantile q (Some <$> dropna s)) ∧
  mean s = mean (Some <$> dropna s) ∧
  std sqrt s = std sqrt (Some <$> dropna s) ∧
  outliers (bounds_of sqrt r k) s !! i = Some false ∧
  ∃ s', data (filloutlier random sqrt r method k w).2 !! c = Some s' ∧
    s' !! i = Some None.
Proof.
  intros Hs Hi.
  split; [intros q; apply quantile_skips_nan|].
  split; [apply mean_skips_nan|]. split; [apply std_skips_nan|].
  split; [unfold outliers; by apply outside_nan|].
  by apply filloutlier_keeps_nan with s.
Qed.




(** C6, amended.  A method argument that is no [str], [int] or [float] makes
    every operation raise [TypeError]; a [k] that is no [int] or [float]
    makes the outlier operations raise [TypeError], whatever the method; a
    string method outside the allowed names makes [fillnan] raise
    [ValueError], and makes the outlier operations raise [ValueError] when
    [k] is an [int] or a [float].  In each case nothing has been written:
    the state after the call is the state before it. *)
Theorem invalid_arguments_raise_before_any_write random sqrt r method k w :
  (type method ∉ [TStr; TInt; TFloat] →
     fillnan random method w = (Raise TypeError, w) ∧
     filloutlier random sqrt r method k w = (Raise TypeError, w)) ∧
  (¬ numeric k → filloutlier random sqrt r method k w = (Raise TypeError, w)) ∧
  (∀ m, method = PyStr m →
     (m ∉ nan_methods → fillnan random method w = (Raise ValueError, w)) ∧
     (m ∉ outlier_methods → numeric k →
        filloutlier random sqrt r method k w = (Raise ValueError, w))).
Proof.
  split; [|split].
  - intros Ht. split; [by apply fillnan_type_error|].
    by apply filloutlier_raise, outlier_type_error.
  - intros Hk. by apply filloutlier_raise, outlier_k_type_error.
  - intros m ->. split.
    + apply fillnan_value_error.
    + intros Hm Hk. by apply filloutlier_raise, outlier_value_error.
Qed.



(** C7.  [Filler(data, columns)] stores a new table object with the contents
    of the caller's table: another address than the caller's, holding an
    equal table, every other object left as it was.  Whatever fill
    operations are then called on the instance, in any number, and whether
    they return or raise, the caller's table object stays as it was. *)
Theorem construction_copies_and_calls_spare_the_original
    random sqrt data cols h inst h1 a :
  init data cols h = (Ok inst, h1) → data = PyDataFrame a → is_Some (h !! a) →
  self_data inst ≠ a ∧
  h1 !! self_data inst = h !! a ∧
  (∀ b, b ≠ self_data inst → h1 !! b = h !! b) ∧
  ∀ os g, heap (calls random sqrt inst os (ProgramState h1 g)) !! a = h !! a.
Proof.
  intros Hinit -> Ha. apply init_ok in Hinit as (a' & [= <-] & Hself & _ & ->).
  assert (self_data inst ≠ a) as Hne.
  { rewrite Hself. intros E. apply (is_fresh (dom h)). rewrite E.
    by apply elem_of_dom. }
  split; [done|]. split; [by rewrite Hself, lookup_partial_alter_eq|].
  split.
  - intros b Hb. rewrite lookup_partial_alter_ne; [done|]. by rewrite <- Hself.
  - intros os g. rewrite calls_frame by done. simpl.
    rewrite lookup_partial_alter_ne; [done|]. by rewrite <- Hself.
Qed.

(** ** The claims at sample inputs *)

Import Examples.

Lemma only_a (P : string → Prop) : P "a"%string → ∀ c, c ∈ ["a"%string] → P c.
Proof. intros H c Hc. by apply list_elem_of_singleton in Hc as ->. Qed.

(** C6 as stated fails: with a method name outside the allowed names and a
    [k] that is a string, [filloutlier_iqr] raises [TypeError], not
    [ValueError]. *)
Lemma a_bad_k_hides_the_bad_method_name :
  ("bogus"%string ∉ outlier_methods) ∧
  (filloutlier_iqr third (PyStr "bogus") (PyStr "x")
     (instance_of column ["a"%string])).1 = Raise TypeError ∧
  (filloutlier_iqr third (PyStr "bogus") (PyStr "x")
     (instance_of column ["a"%string])).1 ≠ Raise ValueError.
Proof.
  split; [not_in_list|]. split; [by vm_compute|]. by vm_compute.
Qed.



Lemma fillnan_mean_fills_with_the_mean_before_witness :
  (∀ c, c ∈ columns (instance_of holes ["a"%string]) →
     is_Some (data (instance_of holes ["a"%string]) !! c)) ∧
  ∃ t w', fillnan third (PyStr "mean") (instance_of holes ["a"%string]) = (Ok t, w').
Proof.
  assert (∀ c, c ∈ columns (instance_of holes ["a"%string]) →
     is_Some (data (instance_of holes ["a"%string]) !! c)) as H.
  { apply only_a. exists holes. reflexivity. }
  split; [exact H|].
  destruct (fillnan_mean_fills_with_the_mean_before third _ H) as (t & w' & Hrun & _).
  exists t, w'. exact Hrun.
Defined.

Lemma fillnan_mode_fills_with_the_first_mode_witness :
  (∀ c, c ∈ columns (instance_of tied ["a"%string]) →
     ∃ s, data (instance_of tied ["a"%string]) !! c = Some s ∧ dropna s ≠ []) ∧
  ∃ t w', fillnan third (PyStr "mode") (instance_of tied ["a"%string]) = (Ok t, w').
Proof.
  assert (∀ c, c ∈ columns (instance_of tied ["a"%string]) →
     ∃ s, data (instance_of tied ["a"%string]) !! c = Some s ∧ dropna s ≠ []) as H.
  { apply only_a. exists tied. split; [reflexivity|discriminate]. }
  split; [exact H|].
  destruct (fillnan_mode_fills_with_the_first_mode third _ H) as (t & w' & Hrun & _).
  exists t, w'. exact Hrun.
Defined.

Lemma fillnan_zero_twice_witness :
  (fillnan third (PyInt 0) (instance_of holes ["a"%string])).1 =
    Ok (data (fillnan third (PyInt 0) (instance_of holes ["a"%string])).2) ∧
  ∃ s', data (fillnan third (PyInt 0) (instance_of holes ["a"%string])).2 !! "a"%string
          = Some s' ∧ Forall is_Some s'.
Proof.
  assert ((fillnan third (PyInt 0) (instance_of holes ["a"%string])).1 =
    Ok (data (fillnan third (PyInt 0) (instance_of holes ["a"%string])).2)) as H
    by (vm_compute; reflexivity).
  split; [exact H|].
  destruct (fillnan_zero_twice third (instance_of holes ["a"%string])) as [_ Hfull].
  apply (Hfull _ H). apply list_elem_of_singleton. reflexivity.
Defined.



Lemma filloutlier_leaves_missing_entries_missing_witness :
  data (instance_of holes ["a"%string]) !! "a"%string = Some holes ∧
  holes !! 0%nat = Some None ∧
  ∃ s', data (filloutlier third sqrt_down Sigma (PyStr "median") (PyInt 1)
                (instance_of holes ["a"%string])).2 !! "a"%string = Some s' ∧
    s' !! 0%nat = Some None.
Proof.
  assert (data (instance_of holes ["a"%string]) !! "a"%string = Some holes) as H1
    by reflexivity.
  assert (holes !! 0%nat = Some None) as H2 by reflexivity.
  split; [exact H1|]. split; [exact H2|].
  destruct (filloutlier_leaves_missing_entries_missing third sqrt_down Sigma
              (PyStr "median") (PyInt 1) _ _ _ _ H1 H2) as (_ & _ & _ & _ & H).
  exact H.
Defined.

Lemma invalid_arguments_raise_before_any_write_witness :
  ("bogus"%string ∉ outlier_methods) ∧ numeric (PyInt 1) ∧
  filloutlier third sqrt_down Iqr (PyStr "bogus") (PyInt 1) (instance_of column ["a"%string]) =
  (Raise ValueError, instance_of column ["a"%string]).
Proof.
  assert ("bogus"%string ∉ outlier_methods) as Hm by not_in_list.
  assert (numeric (PyInt 1)) as Hk by (left; reflexivity).
  split; [exact Hm|]. split; [exact Hk|].
  destruct (invalid_arguments_raise_before_any_write third sqrt_down Iqr
              (PyStr "bogus") (PyInt 1) (instance_of column ["a"%string]))
    as (_ & _ & H).
  destruct (H "bogus"%string eq_refl) as [_ H']. exact (H' Hm Hk).
Defined.

Lemma construction_copies_and_calls_spare_the_original_witness :
  init (PyDataFrame 0) (PyList ["a"%string]) {[ 0%nat := {[ "a"%string := holes ]} ]} =
    (Ok (Instance 1 ["a"%string]),
     {[ 0%nat := {[ "a"%string := holes ]}; 1%nat := {[ "a"%string := holes ]} ]}) ∧
  heap (calls third sqrt_down (Instance 1 ["a"%string])
          [Fillnan (PyInt 0); Filloutlier_iqr (PyStr "mean") k_1_5]
          (ProgramState {[ 0%nat := {[ "a"%string := holes ]};
                           1%nat := {[ "a"%string := holes ]} ]} 0)) !! 0%nat =
  ({[ 0%nat := {[ "a"%string := holes ]} ]} : gmap nat (gmap string (list (option Q)))) !! 0%nat.
Proof.
  assert (init (PyDataFrame 0) (PyList ["a"%string]) {[ 0%nat := {[ "a"%string := holes ]} ]} =
    (Ok (Instance 1 ["a"%string]),
     {[ 0%nat := {[ "a"%string := holes ]}; 1%nat := {[ "a"%string := holes ]} ]})) as H
    by (vm_compute; reflexivity).
  split; [exact H|].
  destruct (construction_copies_and_calls_spare_the_original third sqrt_down
              _ _ _ _ _ 0%nat H eq_refl) as (_ & _ & _ & Hcalls).
  { eexists. reflexivity. }
  apply Hcalls.
Defined.


(** * Further properties of the methods *)

(** ** Helpers *)

Lemma passes_identity T l w :
  (∀ c, c ∈ l → ∃ s, data w !! c = Some s ∧ T (drawn w) s = Ok (s, drawn w)) →
  for_ l (run_col T) w = (Ok (), w).
Proof.
  induction l as [|c0 l IH]; intros Hl; [done|].
  rewrite for_cons. destruct (Hl c0) as (s & Hs & HT); [left|].
  unfold run_col at 1. rewrite Hs, HT, insert_id by done.
  destruct w as [t cols d]. simpl. apply IH. intros c Hc. apply Hl. by right.
Qed.

Lemma passes_keep_generator T l w :
  (∀ d s s' d', T d s = Ok (s', d') → d' = d) →
  drawn (for_ l (run_col T) w).2 = drawn w.
Proof.
  intros HT. apply (for_inv (λ w', drawn w' = drawn w)); [|done].
  intros c w1 <-. unfold run_col. destruct (data w1 !! c) as [s|]; [|done].
  destruct (T (drawn w1) s) as [[s' d']|] eqn:E; [|done]. simpl.
  by apply HT in E.
Qed.

Lemma run_col_ext T1 T2 c w :
  (∀ d s, T1 d s = T2 d s) → run_col T1 c w = run_col T2 c w.
Proof. intros E. unfold run_col. destruct (data w !! c); [|done]. by rewrite E. Qed.

Lemma run_passes_ext T1 T2 w :
  (∀ d s, T1 d s = T2 d s) → run_passes T1 w = run_passes T2 w.
Proof.
  intros E. rewrite !run_passes_for.
  by rewrite (for_ext _ (run_col T1) (run_col T2)) by (intros; by apply run_col_ext).
Qed.

Section MoreFillFacts.
Variable random : nat → Q.

(** A method that writes the value [v s] at the missing entries of [s]. *)
Lemma fillnan_writes method (v : Series → cell) w :
  valid_method nan_methods method →
  (∀ d s, nan_pass random method d s = Ok (assign (isna s) (v s) s, d)) →
  (∀ c, c ∈ columns w → is_Some (data w !! c)) →
  ∃ t w', fillnan random method w = (Ok t, w') ∧
    ∀ c, c ∈ columns w →
      ∃ s s', data w !! c = Some s ∧ t !! c = Some s' ∧
        length s' = length s ∧
        ∀ i, (s !! i = Some None → s' !! i = Some (v s)) ∧
             (∀ x, s !! i = Some (Some x) → s' !! i = Some (Some x)).
Proof.
  intros Hv HT Hcols.
  destruct (fillnan_return random method (λ _, True) w Hv) as (t & w' & Hrun).
  { intros d s _. rewrite HT. by eexists _, _. }
  { intros c Hc. destruct (Hcols c Hc) as [s Hs]. by exists s. }
  exists t, w'. split; [done|]. intros c Hc.
  destruct (fillnan_image random _ _ _ _ c Hv Hrun Hc)
    as (s & s' & Hs & (d & d' & HTs) & Ht).
  exists s, s'. split; [done|]. split; [done|].
  rewrite HT in HTs. injection HTs as <- <-. split; [apply length_assign|].
  intros i. split.
  - intros Hi. apply lookup_assign_true; [by apply lookup_isna_true|by eexists].
  - intros x Hi. rewrite lookup_assign_false; [done|]. by apply lookup_isna_false with x.
Qed.

(** On a column without missing entries a pass of [fillnan] changes nothing
    and draws nothing; with ["mode"] the column must have a row. *)
Lemma nan_pass_present method d s :
  Forall is_Some s → (method = PyStr "mode" → s ≠ []) →
  nan_pass random method d s = Ok (s, d).
Proof.
  intros Hs Hmode. unfold nan_pass, fill.
  destruct method as [| | z | f | m | | | |]; try done.
  - by rewrite assign_isna_present.
  - by rewrite assign_isna_present.
  - destruct (String.eqb m "mean"); [by rewrite assign_isna_present|].
    destruct (String.eqb m "median"); [by rewrite assign_isna_present|].
    destruct (String.eqb m "mode") eqn:E.
    { apply String.eqb_eq in E as ->.
      destruct (mode_nonempty s) as [v ->].
      { apply dropna_present; auto. }
      by rewrite assign_isna_present. }
    destruct (String.eqb m "rdbr"); [|done].
    unfold rdbr_fill. rewrite (mask_sum_isna_present _ Hs).
    unfold draws. simpl. by rewrite assign_seq_nil, Nat.add_0_r.
Qed.

End MoreFillFacts.

(** ** [fillnan] *)

(** X1.  For a numeric [method], when every configured column is a column of
    the table, [fillnan] returns, every entry of a configured column that
    was missing holds the constant and every other entry holds what it
    held. *)
Theorem fillnan_constant_fills_with_the_constant random method w :
  numeric method →
  (∀ c, c ∈ columns w → is_Some (data w !! c)) →
  ∃ t w', fillnan random method w = (Ok t, w') ∧
    ∀ c, c ∈ columns w →
      ∃ s s', data w !! c = Some s ∧ t !! c = Some s' ∧
        length s' = length s ∧
        ∀ i, (s !! i = Some None → s' !! i = Some (to_cell method)) ∧
             (∀ x, s !! i = Some (Some x) → s' !! i = Some (Some x)).
Proof.
  intros Hnum Hcols.
  apply (fillnan_writes random method (λ _, to_cell method)); [| |done].
  - by destruct Hnum as [H|H]; destruct method.
  - intros d s. by destruct Hnum as [H|H]; destruct method.
Qed.

(** X2.  When every configured column is a column of the table,
    [fillnan("median")] returns, every entry of a configured column that was
    missing holds the median of the column as the call found it and every
    other entry holds what it held. *)
Theorem fillnan_median_fills_with_the_median_before random w :
  (∀ c, c ∈ columns w → is_Some (data w !! c)) →
  ∃ t w', fillnan random (PyStr "median") w = (Ok t, w') ∧
    ∀ c, c ∈ columns w →
      ∃ s s', data w !! c = Some s ∧ t !! c = Some s' ∧
        length s' = length s ∧
        ∀ i, (s !! i = Some None → s' !! i = Some (median s)) ∧
             (∀ x, s !! i = Some (Some x) → s' !! i = Some (Some x)).
Proof.
  intros Hcols. apply (fillnan_writes random (PyStr "median") median); [|done|done].
  by right; left.
Qed.


(** X4.  When no configured column has a missing entry (and, for ["mode"],
    none has no row at all), [fillnan] returns the stored table and changes
    nothing: not the table, not the generator. *)
Theorem fillnan_without_missing_entries_changes_nothing random method w :
  valid_method nan_methods method →
  (∀ c, c ∈ columns w →
     ∃ s, data w !! c = Some s ∧ Forall is_Some s ∧
       (method = PyStr "mode" → s ≠ [])) →
  fillnan random method w = (Ok (data w), w).
Proof.
  intros Hv Hcols. rewrite fillnan_passes, run_passes_for by done.
  rewrite passes_identity; [done|].
  intros c Hc. destruct (Hcols c Hc) as (s & Hs & Hp & Hm).
  exists s. split; [done|]. by apply nan_pass_present.
Qed.


(** ** The operations in general *)

Lemma valid_call_dec o : {valid_call o} + {¬ valid_call o}.
Proof.
  destruct o as [m|m k|m k]; simpl.
  - apply valid_method_dec.
  - destruct (valid_method_dec outlier_methods m), (numeric_dec k); tauto.
  - destruct (valid_method_dec outlier_methods m), (numeric_dec k); tauto.
Qed.

Lemma operation_passes random sqrt o w :
  valid_call o →
  method_of random sqrt o w = run_passes (pass_of random sqrt o) w.
Proof.
  destruct o as [m|m k|m k]; simpl.
  - apply fillnan_passes.
  - intros [? ?]. by apply filloutlier_iqr_passes.
  - intros [? ?]. by apply filloutlier_sigma_passes.
Qed.

(** The exception of a call whose arguments fail a check depends on the
    arguments only. *)
Lemma operation_rejected o :
  ¬ valid_call o →
  ∃ e, ∀ random sqrt w, method_of random sqrt o w = (Raise e, w).
Proof.
  destruct o as [m|m k|m k]; simpl; intros Hv.
  - destruct m; try (by exfalso; apply Hv);
      try (exists TypeError; intros; apply fillnan_type_error; not_in_list).
    exists ValueError. intros. by apply fillnan_value_error.
  - destruct (numeric_dec k) as [Hk|Hk].
    2:{ exists TypeError. intros random sqrt w.
        by apply (filloutlier_raise random sqrt Iqr), outlier_k_type_error. }
    destruct m; try (by exfalso; apply Hv);
      try (exists TypeError; intros random sqrt w;
           apply (filloutlier_raise random sqrt Iqr), outlier_type_error; not_in_list).
    exists ValueError. intros random sqrt w.
    apply (filloutlier_raise random sqrt Iqr), outlier_value_error; [done|].
    intros Hin. apply Hv. by split.
  - destruct (numeric_dec k) as [Hk|Hk].
    2:{ exists TypeError. intros random sqrt w.
        by apply (filloutlier_raise random sqrt Sigma), outlier_k_type_error. }
    destruct m; try (by exfalso; apply Hv);
      try (exists TypeError; intros random sqrt w;
           apply (filloutlier_raise random sqrt Sigma), outlier_type_error; not_in_list).
    exists ValueError. intros random sqrt w.
    apply (filloutlier_raise random sqrt Sigma), outlier_value_error; [done|].
    intros Hin. apply Hv. by split.
Qed.

Lemma pass_of_frame random sqrt o d s s' d' :
  pass_of random sqrt o d s = Ok (s', d') →
  length s' = length s ∧ ∀ i, mask_of sqrt o s !! i = Some false → s' !! i = s !! i.
Proof. destruct o; simpl; apply fill_frame. Qed.

Lemma fill_not_rdbr random1 random2 method mask basis d s :
  method ≠ PyStr "rdbr" →
  fill random1 method mask basis d s = fill random2 method mask basis d s ∧
  ∀ s' d', fill random1 method mask basis d s = Ok (s', d') → d' = d.
Proof.
  intros Hm. unfold fill. destruct method as [| | z | f | m | | | |];
    try (split; [done|]; by intros ? ? [= _ <-]).
  destruct (String.eqb m "mean"); [split; [done|]; by intros ? ? [= _ <-]|].
  destruct (String.eqb m "median"); [split; [done|]; by intros ? ? [= _ <-]|].
  destruct (String.eqb m "mode").
  { split; [done|]. destruct (mode basis !! 0%nat); [|done]. by intros ? ? [= _ <-]. }
  destruct (String.eqb m "rdbr") eqn:E; [|split; [done|]; by intros ? ? [= _ <-]].
  apply String.eqb_eq in E as ->. done.
Qed.

Lemma pass_of_not_rdbr random1 random2 sqrt o d s :
  method_arg o ≠ PyStr "rdbr" →
  pass_of random1 sqrt o d s = pass_of random2 sqrt o d s ∧
  ∀ s' d', pass_of random1 sqrt o d s = Ok (s', d') → d' = d.
Proof. destruct o; simpl; apply fill_not_rdbr. Qed.

(** X6.  An operation whose method is not ["rdbr"] does not use the
    generator: it returns or raises the same, and leaves the same state,
    whatever the generator yields, and the position of the generator after
    the call is the position before it. *)
Theorem only_rdbr_uses_the_generator random1 random2 sqrt o w :
  method_arg o ≠ PyStr "rdbr" →
  method_of random1 sqrt o w = method_of random2 sqrt o w ∧
  drawn (method_of random1 sqrt o w).2 = drawn w.
Proof.
  intros Hm. destruct (valid_call_dec o) as [Hv|Hv].
  - rewrite !operation_passes by done. split.
    + apply run_passes_ext. intros d s. by apply pass_of_not_rdbr.
    + rewrite run_passes_for. cbn [snd]. apply passes_keep_generator.
      intros d s s' d'. by apply (pass_of_not_rdbr random1 random1).
  - destruct (operation_rejected o Hv) as [e He]. by rewrite !He.
Qed.

(** X7.  Every operation keeps the shape of the stored table, whether it
    returns or raises: the same configured columns, the same columns in the
    table, the same number of rows in each; and the table it returns is the
    whole stored table as the call leaves it. *)
Theorem operations_keep_the_shape random sqrt o w :
  columns (method_of random sqrt o w).2 = columns w ∧
  related (λ s s', length s' = length s) (data w)
    (data (method_of random sqrt o w).2) ∧
  ∀ t, (method_of random sqrt o w).1 = Ok t → t = data (method_of random sqrt o w).2.
Proof.
  destruct (valid_call_dec o) as [Hv|Hv].
  - rewrite operation_passes, run_passes_for by done. cbn [fst snd].
    split; [apply passes_columns|]. split.
    + apply passes_related.
      * reflexivity.
      * intros s1 s2 s3 H1 H2. by rewrite H2.
      * intros s s' (d & d' & HT). by apply pass_of_frame in HT as [? _].
    + intros t Ht. destruct (for_ _ _ _).1; congruence.
  - destruct (operation_rejected o Hv) as [e He]. rewrite He. cbn.
    split; [done|]. split; [|done]. intros c. by destruct (data w !! c).
Qed.

(** ** Columns in order *)

Lemma for_app {A} (l1 l2 : list A) (body : A → M ()) w :
  for_ (l1 ++ l2) body w =
  match for_ l1 body w with
  | (Ok _, w1) => for_ l2 body w1
  | (Raise e, w1) => (Raise e, w1)
  end.
Proof.
  revert w. induction l1 as [|x l1 IH]; intros w; [done|].
  rewrite <- app_comm_cons, !for_cons.
  destruct (body x w) as [[[]|e] w1]; [apply IH|done].
Qed.

Lemma run_col_with_columns T c cols w :
  run_col T c (with_columns cols w) =
  ((run_col T c w).1, with_columns cols (run_col T c w).2).
Proof.
  unfold run_col, with_columns. simpl. destruct (data w !! c) as [s|]; [|done].
  by destruct (T (drawn w) s) as [[s' d']|].
Qed.

Lemma passes_with_columns T l cols w :
  for_ l (run_col T) (with_columns cols w) =
  ((for_ l (run_col T) w).1, with_columns cols (for_ l (run_col T) w).2).
Proof.
  revert w. induction l as [|c l IH]; intros w; [done|].
  rewrite !for_cons, run_col_with_columns.
  destruct (run_col T c w) as [[[]|e] w1]; simpl; [apply IH|done].
Qed.

Lemma run_passes_with_columns T cols w :
  run_passes T (with_columns cols w) =
  (match (for_ cols (run_col T) w).1 with
   | Ok _ => Ok (data (for_ cols (run_col T) w).2)
   | Raise e => Raise e
   end, with_columns cols (for_ cols (run_col T) w).2).
Proof. rewrite run_passes_for. simpl. by rewrite passes_with_columns. Qed.

Lemma run_passes_head_raise T c l w e :
  run_col T c w = (Raise e, w) →
  run_passes T (with_columns (c :: l) w) = (Raise e, with_columns (c :: l) w).
Proof.
  intros H. rewrite run_passes_with_columns, for_cons. by rewrite H.
Qed.

Lemma run_col_raises T c w s e :
  data w !! c = Some s → T (drawn w) s = Raise e → run_col T c w = (Raise e, w).
Proof. intros Hc HT. unfold run_col. by rewrite Hc, HT. Qed.

(** X8.  The configured columns are handled in order, one after the other,
    and nothing is taken back: an operation on an instance configured with
    [l1 ++ l2] does what the operation configured with [l1] does and, when
    that returns, goes on as the operation configured with [l2] does from
    there; when that raises, it raises the same with the table as it is
    then. *)
Theorem operation_over_appended_columns random sqrt o l1 l2 w :
  method_of random sqrt o (with_columns (l1 ++ l2) w) =
  match method_of random sqrt o (with_columns l1 w) with
  | (Ok _, w1) =>
      ((method_of random sqrt o (with_columns l2 w1)).1,
       with_columns (l1 ++ l2) (method_of random sqrt o (with_columns l2 w1)).2)
  | (Raise e, w1) => (Raise e, with_columns (l1 ++ l2) w1)
  end.
Proof.
  destruct (valid_call_dec o) as [Hv|Hv].
  - rewrite !operation_passes by done. rewrite !run_passes_with_columns.
    rewrite for_app.
    destruct (for_ l1 (run_col (pass_of random sqrt o)) w) as [[[]|e] w1]; [|done].
    cbn [fst snd]. rewrite operation_passes by done.
    rewrite run_passes_with_columns. rewrite passes_with_columns. cbn [fst snd].
    by destruct (for_ l2 _ w1) as [[[]|e] w2].
  - destruct (operation_rejected o Hv) as [e He]. by rewrite !He.
Qed.

(** X9.  When the first configured column is no column of the table, an
    operation whose arguments pass the checks raises [KeyError] and leaves
    everything as it was. *)
Theorem absent_column_raises_KeyError random sqrt o c l w :
  valid_call o → data w !! c = None →
  method_of random sqrt o (with_columns (c :: l) w) =
  (Raise KeyError, with_columns (c :: l) w).
Proof.
  intros Hv Hc. rewrite operation_passes by done.
  apply run_passes_head_raise. unfold run_col. by rewrite Hc.
Qed.

(** X10.  On a first configured column without any present value,
    [fillnan("mode")] raises [KeyError]; [fillnan("rdbr")] raises
    [IndexError] when the column has a row, and nothing has been drawn;
    ["mean"] and ["median"] write NaN over NaN, which leaves the column as it
    was.  In each case the state is left as it was. *)
Theorem fillnan_on_a_column_without_values random c l w s :
  data w !! c = Some s → dropna s = [] →
  fillnan random (PyStr "mode") (with_columns (c :: l) w) =
    (Raise KeyError, with_columns (c :: l) w) ∧
  (s ≠ [] →
   fillnan random (PyStr "rdbr") (with_columns (c :: l) w) =
     (Raise IndexError, with_columns (c :: l) w)) ∧
  nan_pass random (PyStr "mean") (drawn w) s = Ok (s, drawn w) ∧
  nan_pass random (PyStr "median") (drawn w) s = Ok (s, drawn w).
Proof.
  intros Hc Hs.
  assert (valid_method nan_methods (PyStr "mode")) as Hmode by (by right; right; left).
  assert (valid_method nan_methods (PyStr "rdbr")) as Hrdbr
    by (by right; right; right; left).
  split; [|split; [|split]].
  - rewrite fillnan_passes by done.
    apply run_passes_head_raise, run_col_raises with s; [done|].
    unfold nan_pass. cbn. by rewrite mode_empty.
  - intros Hne. rewrite fillnan_passes by done.
    apply run_passes_head_raise, run_col_raises with s; [done|].
    unfold nan_pass. cbn. unfold rdbr_fill.
    assert (value_counts s = []) as -> by (by apply value_counts_nil).
    destruct (mask_sum (isna s)) as [|n] eqn:Hn; [|done].
    exfalso. clear -Hs Hn Hne. induction s as [|[x|] s IH]; simpl in *; done.
  - unfold nan_pass. cbn. unfold mean. rewrite Hs. by rewrite assign_isna_nan.
  - unfold nan_pass. cbn. unfold median, quantile. rewrite Hs. cbn.
    by rewrite assign_isna_nan.
Qed.



(** ** Outliers, further *)

Lemma assign_unflagged mask v s :
  Forall (λ b, b = false) mask → assign mask v s = s.
Proof.
  intros Hm. revert s. induction Hm as [|b mask -> Hm IH]; intros [|x s]; simpl; try done.
  by rewrite IH.
Qed.

Lemma assign_seq_unflagged mask vs s :
  Forall (λ b, b = false) mask → assign_seq mask vs s = s.
Proof.
  intros Hm. revert s. induction Hm as [|b mask -> Hm IH]; intros [|x s]; simpl; try done.
  by rewrite IH.
Qed.

Lemma mask_sum_unflagged mask : Forall (λ b, b = false) mask → mask_sum mask = 0%nat.
Proof. induction 1 as [|b mask -> Hm IH]; simpl; [done|]. by rewrite IH. Qed.

Lemma outside_nan_bounds l r s :
  l = None ∨ r = None → (l = None → r = None) → (r = None → l = None) →
  Forall (λ b, b = false) (outside l r s).
Proof.
  intros H Hlr Hrl.
  assert (l = None ∧ r = None) as [-> ->] by (destruct H; auto).
  unfold outside. apply Forall_forall. intros b Hb.
  apply list_elem_of_In, in_map_iff in Hb as (x & <- & _). by destruct x.
Qed.

Lemma lookup_unflagged mask i b :
  Forall (λ b, b = false) mask → mask !! i = Some b → b = false.
Proof.
  intros Hm Hi. rewrite Forall_forall in Hm. apply Hm.
  by apply list_elem_of_lookup_2 in Hi.
Qed.

Section MoreOutlierFacts.
Variable random : nat → Q.
Variable sqrt : Q → Q.

Lemma fill_unflagged method mask basis d s :
  valid_method outlier_methods method →
  Forall (λ b, b = false) mask →
  fill random method mask basis d s = Ok (s, d).
Proof.
  intros Hv Hm. unfold fill. destruct method as [| | z | f | m | | | |]; try done.
  - by rewrite assign_unflagged.
  - by rewrite assign_unflagged.
  - unfold valid_method, outlier_methods in Hv. valid_cases Hv; cbn.
    + by rewrite assign_unflagged.
    + by rewrite assign_unflagged.
    + unfold rdbr_fill. rewrite mask_sum_unflagged by done.
      by rewrite assign_seq_unflagged, Nat.add_0_r.
Qed.

Lemma filloutlier_unflagged r method k w :
  valid_method outlier_methods method → numeric k →
  (∀ c, c ∈ columns w →
     ∃ s, data w !! c = Some s ∧
       Forall (λ b, b = false) (outliers (bounds_of sqrt r k) s)) →
  filloutlier random sqrt r method k w = (Ok (data w), w).
Proof.
  intros Hv Hk Hcols. rewrite filloutlier_passes, run_passes_for by done.
  rewrite passes_identity; [done|].
  intros c Hc. destruct (Hcols c Hc) as (s & Hs & Hm). exists s. split; [done|].
  unfold outlier_pass. by apply fill_unflagged.
Qed.



Lemma nan_k_unflagged r s :
  Forall (λ b, b = false) (outliers (bounds_of sqrt r (PyFloat None)) s).
Proof.
  unfold outliers. destruct r; cbn [bounds_of iqr_bounds sigma_bounds fst snd to_cell].
  - apply outside_nan_bounds.
    + left. unfold fsub, fmul, lift2. by repeat case_match.
    + intros _. unfold fadd, fmul, lift2. by repeat case_match.
    + intros _. unfold fsub, fmul, lift2. by repeat case_match.
  - apply outside_nan_bounds.
    + left. unfold fsub, fmul, lift2. by repeat case_match.
    + intros _. unfold fadd, fmul, lift2. by repeat case_match.
    + intros _. unfold fsub, fmul, lift2. by repeat case_match.
Qed.



End MoreOutlierFacts.




(** X15.  With [k] the float NaN, which passes the checks, nothing is
    flagged: when every configured column is a column of the table, both
    outlier operations return the stored table and change nothing. *)
Theorem filloutlier_with_nan_k_changes_nothing random sqrt r method w :
  valid_method outlier_methods method →
  (∀ c, c ∈ columns w → is_Some (data w !! c)) →
  filloutlier random sqrt r method (PyFloat None) w = (Ok (data w), w).
Proof.
  intros Hv Hcols. apply filloutlier_unflagged; [done|by right|].
  intros c Hc. destruct (Hcols c Hc) as [s Hs]. exists s. split; [done|].
  apply nan_k_unflagged.
Qed.




(** ** Construction *)

(** X19.  [Filler(data, columns)] raises [TypeError], and creates no object,
    when [data] is no table or [columns] is no index, list or tuple;
    otherwise it returns an instance configured with the elements of
    [columns], whose table is a new object. *)
Theorem construction_checks_its_arguments data cols h :
  (type data ≠ TDataFrame ∨ type cols ∉ [TIndex; TList; TTuple] →
   init data cols h = (Raise TypeError, h)) ∧
  (type data = TDataFrame → type cols ∈ [TIndex; TList; TTuple] →
   ∃ inst h1, init data cols h = (Ok inst, h1) ∧
     self_cols inst = elements_of cols ∧ (self_data inst ∉ dom h) ∧
     dom h ⊆ dom h1).
Proof.
  split.
  - intros Hbad. unfold init. destruct (decide (type data ≠ TDataFrame)) as [Hd|Hd].
    + by rewrite bool_decide_eq_true_2.
    + rewrite bool_decide_eq_false_2 by done. destruct Hbad as [?|Hc]; [done|].
      by rewrite bool_decide_eq_true_2.
  - intros Hd Hc. unfold init.
    rewrite bool_decide_eq_false_2 by (intros H; by apply H).
    rewrite bool_decide_eq_false_2 by (intros H; by apply H).
    destruct data; try done. eexists _, _. split; [done|]. simpl.
    split; [done|]. split; [apply is_fresh|].
    intros b Hb. apply elem_of_dom. apply elem_of_dom in Hb.
    rewrite lookup_partial_alter_ne; [done|].
    intros <-. apply (is_fresh (dom h)). by apply elem_of_dom.
Qed.

(** X20.  Two instances built from one table do not share a table: they
    hold different addresses, and no sequence of fill operations on the
    second writes the table of the first. *)
Theorem two_instances_do_not_interfere
    random sqrt a cols1 cols2 h inst1 h1 inst2 h2 os g :
  is_Some (h !! a) →
  init (PyDataFrame a) cols1 h = (Ok inst1, h1) →
  init (PyDataFrame a) cols2 h1 = (Ok inst2, h2) →
  self_data inst1 ≠ self_data inst2 ∧
  h2 !! self_data inst1 = h !! a ∧
  h2 !! self_data inst2 = h !! a ∧
  heap (calls random sqrt inst2 os (ProgramState h2 g)) !! self_data inst1 = h !! a.
Proof.
  intros Ha H1 H2.
  apply init_ok in H1 as (a1 & [= <-] & Hs1 & _ & ->).
  apply init_ok in H2 as (a2 & [= <-] & Hs2 & _ & ->).
  assert (self_data inst1 ≠ a) as Hne1.
  { rewrite Hs1. intros E. apply (is_fresh (dom h)). rewrite E. by apply elem_of_dom. }
  assert (partial_alter (λ _, h !! a) (fresh (dom h)) h !! self_data inst1 = h !! a) as Hcopy.
  { by rewrite Hs1, lookup_partial_alter_eq. }
  assert (self_data inst1 ≠ self_data inst2) as Hne.
  { rewrite Hs2. intros E.
    apply (is_fresh (dom (partial_alter (λ _, h !! a) (fresh (dom h)) h))).
    rewrite <- E. apply elem_of_dom. rewrite Hcopy. done. }
  assert (partial_alter (λ _, h !! a) (fresh (dom h)) h !! a = h !! a) as Horig.
  { rewrite lookup_partial_alter_ne; [done|]. by rewrite <- Hs1. }
  split; [done|]. split; [|split].
  - rewrite lookup_partial_alter_ne; [done|]. by rewrite <- Hs2.
  - rewrite Hs2, lookup_partial_alter_eq. done.
  - rewrite calls_frame by done. simpl.
    rewrite lookup_partial_alter_ne; [done|]. by rewrite <- Hs2.
Qed.

(** ** The order of the columns *)

Lemma fill_not_rdbr_position random method mask basis d s :
  method ≠ PyStr "rdbr" →
  fill random method mask basis d s =
  match fill random method mask basis 0 s with
  | Ok (s', _) => Ok (s', d)
  | Raise e => Raise e
  end.
Proof.
  intros Hm. unfold fill. destruct method as [| | z | f | m | | | |]; try done.
  destruct (String.eqb m "mean"); [done|].
  destruct (String.eqb m "median"); [done|].
  destruct (String.eqb m "mode"); [by destruct (mode basis !! 0%nat)|].
  destruct (String.eqb m "rdbr") eqn:E; [|done].
  by apply String.eqb_eq in E as ->.
Qed.

Lemma pass_of_position random sqrt o d s :
  method_arg o ≠ PyStr "rdbr" →
  pass_of random sqrt o d s =
  match pass_of random sqrt o 0 s with
  | Ok (s', _) => Ok (s', d)
  | Raise e => Raise e
  end.
Proof. destruct o; simpl; apply fill_not_rdbr_position. Qed.

Lemma passes_permuted T l1 l2 :
  (∀ d s, T d s = match T 0%nat s with
                  | Ok (s', _) => Ok (s', d)
                  | Raise e => Raise e
                  end) →
  l1 ≡ₚ l2 →
  ∀ w w', for_ l1 (run_col T) w = (Ok (), w') → for_ l2 (run_col T) w = (Ok (), w').
Proof.
  intros HT Hp. induction Hp as [|x l1 l2 Hp IH|x y l|l1 l2 l3 Hp1 IH1 Hp2 IH2];
    intros w w' Hrun.
  - done.
  - rewrite for_cons in *. destruct (run_col T x w) as [[[]|e] w1]; [by apply IH|done].
  - rewrite for_cons in Hrun.
    destruct (run_col T y w) as [[[]|e] wy] eqn:Hy; [|done].
    rewrite for_cons in Hrun.
    destruct (run_col T x wy) as [[[]|e] wyx] eqn:Hx; [|done].
    apply run_col_ok in Hy as (sy & sy' & dy & Hsy & HTy & ->).
    apply run_col_ok in Hx as (sx & sx' & dx & Hsx & HTx & ->).
    cbn [data drawn columns] in *.
    rewrite HT in HTy. rewrite HT in HTx.
    destruct (T 0%nat sy) as [[sy0 ?]|] eqn:Hy0; [|done]. injection HTy as <- <-.
    destruct (T 0%nat sx) as [[sx0 ?]|] eqn:Hx0; [|done]. injection HTx as <- <-.
    assert (∀ c s s0 d0 w0, data w0 !! c = Some s → T 0%nat s = Ok (s0, d0) →
              run_col T c w0 =
              (Ok (), World (<[c := s0]> (data w0)) (columns w0) (drawn w0))) as Hstep.
    { intros c s s0 d0 w0 Hc H0. unfold run_col. by rewrite Hc, HT, H0. }
    destruct (decide (x = y)) as [->|Hne].
    + rewrite for_cons, (Hstep _ _ _ _ _ Hsy Hy0).
      rewrite for_cons, (Hstep y sx sx0 n0); [exact Hrun|exact Hsx|done].
    + rewrite lookup_insert_ne in Hsx by done.
      rewrite for_cons, (Hstep _ _ _ _ _ Hsx Hx0).
      rewrite for_cons, (Hstep _ sy sy0 n); [|cbn [data]; by rewrite lookup_insert_ne|done].
      cbn [data drawn columns]. rewrite insert_insert_ne by done. exact Hrun.
  - by apply IH2, IH1.
Qed.

(** X21.  For a method other than ["rdbr"], the order in which the columns
    are configured does not matter to a call that returns: configured with
    the same columns in another order, the operation returns the same table
    and leaves the same table and generator. *)
Theorem column_order_is_immaterial random sqrt o l1 l2 w t w1 :
  method_arg o ≠ PyStr "rdbr" → l1 ≡ₚ l2 →
  method_of random sqrt o (with_columns l1 w) = (Ok t, w1) →
  method_of random sqrt o (with_columns l2 w) = (Ok t, with_columns l2 w1).
Proof.
  intros Hm Hp Hrun. destruct (valid_call_dec o) as [Hv|Hv].
  2:{ destruct (operation_rejected o Hv) as [e He]. by rewrite He in Hrun. }
  rewrite operation_passes, run_passes_with_columns in * by done.
  destruct (for_ l1 _ w) as [[[]|e] w1'] eqn:H1; [|done].
  cbn [fst snd] in Hrun. injection Hrun as <- <-.
  rewrite (passes_permuted _ l1 l2 (λ d s, pass_of_position random sqrt o d s Hm) Hp _ _ H1).
  done.
Qed.

(** ** The mean after a fill with the mean *)




(** ** The further properties at sample inputs *)

Import MoreExamples.

Lemma fillnan_constant_fills_with_the_constant_witness :
  numeric (PyInt 0) ∧
  (∀ c, c ∈ columns (instance_of holes ["a"%string]) →
     is_Some (data (instance_of holes ["a"%string]) !! c)) ∧
  ∃ t w', fillnan third (PyInt 0) (instance_of holes ["a"%string]) = (Ok t, w').
Proof.
  assert (numeric (PyInt 0)) as Hn by (left; reflexivity).
  assert (∀ c, c ∈ columns (instance_of holes ["a"%string]) →
     is_Some (data (instance_of holes ["a"%string]) !! c)) as H.
  { apply only_a. exists holes. reflexivity. }
  split; [exact Hn|]. split; [exact H|].
  destruct (fillnan_constant_fills_with_the_constant third _ _ Hn H) as (t & w' & Hrun & _).
  exists t, w'. exact Hrun.
Defined.

Lemma fillnan_median_fills_with_the_median_before_witness :
  (∀ c, c ∈ columns (instance_of holes ["a"%string]) →
     is_Some (data (instance_of holes ["a"%string]) !! c)) ∧
  ∃ t w', fillnan third (PyStr "median") (instance_of holes ["a"%string]) = (Ok t, w').
Proof.
  assert (∀ c, c ∈ columns (instance_of holes ["a"%string]) →
     is_Some (data (instance_of holes ["a"%string]) !! c)) as H.
  { apply only_a. exists holes. reflexivity. }
  split; [exact H|].
  destruct (fillnan_median_fills_with_the_median_before third _ H) as (t & w' & Hrun & _).
  exists t, w'. exact Hrun.
Defined.

Lemma fillnan_without_missing_entries_changes_nothing_witness :
  valid_method nan_methods (PyStr "mode") ∧
  fillnan third (PyStr "mode") (instance_of column ["a"%string]) =
    (Ok (data (instance_of column ["a"%string])), instance_of column ["a"%string]).
Proof.
  assert (valid_method nan_methods (PyStr "mode")) as Hv by (right; right; left).
  split; [exact Hv|].
  apply (fillnan_without_missing_entries_changes_nothing third _ _ Hv).
  apply only_a. exists column. split; [reflexivity|].
  split; [|discriminate]. unfold column. repeat constructor; eexists; reflexivity.
Defined.


Lemma only_rdbr_uses_the_generator_witness :
  method_arg (Filloutlier_sigma (PyStr "mean") (PyInt 1)) ≠ PyStr "rdbr" ∧
  drawn (method_of third sqrt_down (Filloutlier_sigma (PyStr "mean") (PyInt 1))
           (instance_of column ["a"%string])).2 = 0%nat.
Proof.
  assert (method_arg (Filloutlier_sigma (PyStr "mean") (PyInt 1)) ≠ PyStr "rdbr") as H
    by discriminate.
  split; [exact H|].
  destruct (only_rdbr_uses_the_generator third third sqrt_down _
              (instance_of column ["a"%string]) H) as [_ Hd].
  exact Hd.
Defined.

Lemma absent_column_raises_KeyError_witness :
  valid_call (Fillnan (PyInt 0)) ∧
  data (instance_of holes []) !! "z"%string = None ∧
  method_of third sqrt_down (Fillnan (PyInt 0))
    (with_columns ["z"; "a"]%string (instance_of holes [])) =
  (Raise KeyError, with_columns ["z"; "a"]%string (instance_of holes [])).
Proof.
  assert (valid_call (Fillnan (PyInt 0))) as Hv by exact I.
  assert (data (instance_of holes []) !! "z"%string = None) as Hc by reflexivity.
  split; [exact Hv|]. split; [exact Hc|].
  exact (absent_column_raises_KeyError third sqrt_down _ _ _ _ Hv Hc).
Defined.

Lemma fillnan_on_a_column_without_values_witness :
  data (instance_of blank []) !! "a"%string = Some blank ∧
  dropna blank = [] ∧
  fillnan third (PyStr "mode") (with_columns ["a"%string] (instance_of blank [])) =
    (Raise KeyError, with_columns ["a"%string] (instance_of blank [])).
Proof.
  assert (data (instance_of blank []) !! "a"%string = Some blank) as Hc by reflexivity.
  assert (dropna blank = []) as Hs by reflexivity.
  split; [exact Hc|]. split; [exact Hs|].
  destruct (fillnan_on_a_column_without_values third "a"%string [] _ _ Hc Hs) as [H _].
  exact H.
Defined.




Lemma filloutlier_with_nan_k_changes_nothing_witness :
  valid_method outlier_methods (PyInt 0) ∧
  filloutlier third sqrt_down Iqr (PyInt 0) (PyFloat None) (instance_of column ["a"%string]) =
    (Ok (data (instance_of column ["a"%string])), instance_of column ["a"%string]).
Proof.
  assert (valid_method outlier_methods (PyInt 0)) as Hv by exact I.
  split; [exact Hv|].
  apply (filloutlier_with_nan_k_changes_nothing third sqrt_down Iqr _ _ Hv).
  apply only_a. exists column. reflexivity.
Defined.




Lemma construction_checks_its_arguments_witness :
  (type (PyList ["a"%string]) ≠ TDataFrame ∨
   type (PyList ["a"%string]) ∉ [TIndex; TList; TTuple]) ∧
  init (PyList ["a"%string]) (PyList ["a"%string]) ∅ = (Raise TypeError, ∅).
Proof.
  assert (type (PyList ["a"%string]) ≠ TDataFrame ∨
          type (PyList ["a"%string]) ∉ [TIndex; TList; TTuple]) as H
    by (left; discriminate).
  split; [exact H|].
  destruct (construction_checks_its_arguments (PyList ["a"%string])
              (PyList ["a"%string]) ∅) as [Hbad _].
  exact (Hbad H).
Defined.

Lemma two_instances_do_not_interfere_witness :
  is_Some (({[ 0%nat := {[ "a"%string := holes ]} ]}
            : gmap nat (gmap string (list (option Q)))) !! 0%nat) ∧
  heap (calls third sqrt_down (Instance 2 ["a"%string]) [Fillnan (PyInt 0)]
          (ProgramState {[ 0%nat := {[ "a"%string := holes ]};
                           1%nat := {[ "a"%string := holes ]};
                           2%nat := {[ "a"%string := holes ]} ]} 0)) !! 1%nat =
  ({[ 0%nat := {[ "a"%string := holes ]} ]}
   : gmap nat (gmap string (list (option Q)))) !! 0%nat.
Proof.
  assert (is_Some (({[ 0%nat := {[ "a"%string := holes ]} ]}
            : gmap nat (gmap string (list (option Q)))) !! 0%nat)) as Ha
    by (eexists; reflexivity).
  split; [exact Ha|].
  assert (init (PyDataFrame 0) (PyList ["a"%string]) {[ 0%nat := {[ "a"%string := holes ]} ]} =
    (Ok (Instance 1 ["a"%string]),
     {[ 0%nat := {[ "a"%string := holes ]}; 1%nat := {[ "a"%string := holes ]} ]})) as H1
    by (vm_compute; reflexivity).
  assert (init (PyDataFrame 0) (PyTuple ["a"%string])
            {[ 0%nat := {[ "a"%string := holes ]}; 1%nat := {[ "a"%string := holes ]} ]} =
    (Ok (Instance 2 ["a"%string]),
     {[ 0%nat := {[ "a"%string := holes ]}; 1%nat := {[ "a"%string := holes ]};
        2%nat := {[ "a"%string := holes ]} ]})) as H2
    by (vm_compute; reflexivity).
  destruct (two_instances_do_not_interfere third sqrt_down 0%nat _ _ _ _ _ _ _
              [Fillnan (PyInt 0)] 0%nat Ha H1 H2) as (_ & _ & _ & H).
  exact H.
Defined.

Lemma column_order_is_immaterial_witness :
  method_arg (Fillnan (PyStr "mean")) ≠ PyStr "rdbr" ∧
  ["a"; "b"]%string ≡ₚ ["b"; "a"]%string ∧
  method_of third sqrt_down (Fillnan (PyStr "mean"))
    (with_columns ["b"; "a"]%string two_columns) =
  (Ok (data (method_of third sqrt_down (Fillnan (PyStr "mean"))
               (with_columns ["a"; "b"]%string two_columns)).2),
   with_columns ["b"; "a"]%string
     (method_of third sqrt_down (Fillnan (PyStr "mean"))
        (with_columns ["a"; "b"]%string two_columns)).2).
Proof.
  assert (method_arg (Fillnan (PyStr "mean")) ≠ PyStr "rdbr") as Hm by discriminate.
  assert (["a"; "b"]%string ≡ₚ ["b"; "a"]%string) as Hp by apply Permutation_swap.
  assert (method_of third sqrt_down (Fillnan (PyStr "mean"))
            (with_columns ["a"; "b"]%string two_columns) =
          (Ok (data (method_of third sqrt_down (Fillnan (PyStr "mean"))
                       (with_columns ["a"; "b"]%string two_columns)).2),
           (method_of third sqrt_down (Fillnan (PyStr "mean"))
              (with_columns ["a"; "b"]%string two_columns)).2)) as H
    by (vm_compute; reflexivity).
  split; [exact Hm|]. split; [exact Hp|].
  exact (column_order_is_immaterial third sqrt_down _ _ _ _ _ _ Hm Hp H).
Defined.

